(** * The feedback renderer of [App.tsx]

    The right pane of [App] renders the model's answer through
    [dangerouslySetInnerHTML] with the chain of [String.prototype.replace]
    calls of src/App.tsx, lines 234-256.  This file embeds that chain.

    A JavaScript string is a sequence of UTF-16 code units, modelled as
    [list N].  Each regular expression of the chain is modelled by a
    matcher that is run at a position of the string: it sees the code unit
    before the position (for [^] under the [m] flag) and the rest of the
    string, and returns the length of the match and its capture groups.
    [replace_all] is the global ([g]) replace of ECMAScript: it scans from
    left to right, tries the matcher at each position, replaces the match
    and resumes after it, copying the unmatched code units. *)

From Stdlib Require Import Ascii String NArith ZArith Bool Lia List.
Import ListNotations.

Definition str := list N.

(** ASCII text as code units, for writing concrete inputs. *)
Fixpoint u (s : string) : str :=
  match s with
  | EmptyString => []
  | String c s' => N.of_nat (nat_of_ascii c) :: u s'
  end.

Definition nl : str := [10%N].

(** ECMAScript LineTerminator: LF, CR, LS, PS.  [.] matches any other code
    unit, and under the [m] flag [^] matches after one of them. *)
Definition is_lt (c : N) : bool :=
  (c =? 10)%N || (c =? 13)%N || (c =? 8232)%N || (c =? 8233)%N.

Definition is_digit (c : N) : bool := (48 <=? c)%N && (c <=? 57)%N.

Fixpoint starts_with (p t : str) : bool :=
  match p, t with
  | [], _ => true
  | a :: p', b :: t' => (a =? b)%N && starts_with p' t'
  | _ :: _, [] => false
  end.

(** The code unit before the position reached after reading [mt]. *)
Definition last_char (prev : option N) (mt : str) : option N :=
  fold_left (fun _ c => Some c) mt prev.

(** A matcher: code unit before the position, rest of the string;
    result: length of the match and the capture groups. *)
Definition matcher := option N -> str -> option (nat * list str).

(** A replacement: the matched text, the groups, the offset of the match
    and the whole string (the arguments a replacer callback receives). *)
Definition replacer := str -> list str -> nat -> str -> str.

Section Replace.
Variable m : matcher.
Variable rp : replacer.
Variable orig : str.

(** One step per position; [fuel] bounds the number of positions. *)
Fixpoint go (fuel : nat) (prev : option N) (t : str) (off : nat) : str :=
  match fuel with
  | O => t
  | S f =>
      match m prev t with
      | Some (len, gs) =>
          let mt := firstn len t in
          rp mt gs off orig ++
          match len with
          | O =>
              (* empty match: the next search starts one unit further *)
              match t with
              | [] => []
              | c :: t' => c :: go f (Some c) t' (S off)
              end
          | S _ => go f (last_char prev mt) (skipn len t) (off + len)
          end
      | None =>
          match t with
          | [] => []
          | c :: t' => c :: go f (Some c) t' (S off)
          end
      end
  end.
End Replace.

(** [s.replace(re, rp)] for a global [re]. *)
Definition replace_all (m : matcher) (rp : replacer) (s : str) : str :=
  go m rp s (S (length s)) None s 0.

(** ** The regular expressions *)

(** Lazy [.*?] followed by the literal [close]: the number of code units
    consumed before the first [close], none of them a line terminator. *)
Fixpoint lazy_until (close t : str) : option nat :=
  if starts_with close t then Some O
  else
    match t with
    | [] => None
    | c :: t' =>
        if is_lt c then None
        else match lazy_until close t' with
             | Some k => Some (S k)
             | None => None
             end
    end.

(** Greedy [.*]: the code units up to the next line terminator. *)
Fixpoint take_line (t : str) : nat :=
  match t with
  | [] => O
  | c :: t' => if is_lt c then O else S (take_line t')
  end.

(** Greedy [\d+]. *)
Fixpoint take_digits (t : str) : nat :=
  match t with
  | [] => O
  | c :: t' => if is_digit c then S (take_digits t') else O
  end.

(** [^] under the [m] flag. *)
Definition at_line_start (prev : option N) : bool :=
  match prev with
  | None => true
  | Some c => is_lt c
  end.

Definition star2 : str := u "**".

(** [/\*\*(.*?)\*\*/g] *)
Definition m_bold : matcher := fun _ t =>
  if starts_with star2 t then
    match lazy_until star2 (skipn 2 t) with
    | Some k => Some (4 + k, [firstn k (skipn 2 t)])%nat
    | None => None
    end
  else None.

(** The source regex [^- ] followed by the greedy group [.*], flags [gm]. *)
Definition m_bullet : matcher := fun prev t =>
  if at_line_start prev && starts_with (u "- ") t then
    let k := take_line (skipn 2 t) in
    Some (2 + k, [firstn k (skipn 2 t)])%nat
  else None.

(** The source regex [^\d+\. ] followed by the group [.*], flags [gm]; [\d+] is greedy, and giving back a digit leaves a
    digit where [\.] is needed, so the maximal run is the only candidate. *)
Definition m_number : matcher := fun prev t =>
  let d := take_digits t in
  if at_line_start prev && (0 <? d)%nat && starts_with (u ". ") (skipn d t) then
    let k := take_line (skipn (d + 2) t) in
    Some (d + 2 + k, [firstn k (skipn (d + 2) t)])%nat
  else None.

(** A regular expression without operators, first group [firstn g1 p]. *)
Definition m_lit (p : str) (g1 : nat) : matcher := fun _ t =>
  if starts_with p t then Some (length p, [firstn g1 p]) else None.

Definition strong_open : str := u "<strong>".
Definition strong_close : str := u "</strong>".
Definition li_open : str := u "<li>".
Definition li_close : str := u "</li>".
Definition ul_open : str := u "<ul>".
Definition ul_close : str := u "</ul>".
Definition ol_open : str := u "<ol>".
Definition ol_close : str := u "</ol>".

(** [/(<\/strong>)\n<li>/g] *)
Definition m_start_ul : matcher := m_lit (strong_close ++ nl ++ li_open) 9.
(** [/(<\/li>)\n<strong>/g] *)
Definition m_end_ul : matcher := m_lit (li_close ++ nl ++ strong_open) 5.
(** [/(<\/li>)\n\n<li>/g] *)
Definition m_blank_li : matcher := m_lit (li_close ++ nl ++ nl ++ li_open) 5.

(** [/<li>.*?<\/li>/g] *)
Definition m_item : matcher := fun _ t =>
  if starts_with li_open t then
    match lazy_until li_close (skipn 4 t) with
    | Some k => Some (4 + k + 5, [])%nat
    | None => None
    end
  else None.

(** ** The replacements *)

Definition group1 (gs : list str) : str := nth 0 gs [].

(** ['<strong>$1</strong>'] *)
Definition r_bold : replacer := fun _ gs _ _ =>
  strong_open ++ group1 gs ++ strong_close.
(** ['<li>$1</li>'] *)
Definition r_li : replacer := fun _ gs _ _ => li_open ++ group1 gs ++ li_close.
(** ['$1<ul><li>'] *)
Definition r_start_ul : replacer := fun _ gs _ _ => group1 gs ++ ul_open ++ li_open.
(** ['</li></ul><strong>'] (used by two of the calls) *)
Definition r_end_ul : replacer := fun _ _ _ _ => li_close ++ ul_close ++ strong_open.

(** [String.prototype.lastIndexOf]: the last index of [needle], -1 if none. *)
Fixpoint last_index_from (i : Z) (hay needle : str) (acc : Z) : Z :=
  match hay with
  | [] => if starts_with needle [] then i else acc
  | _ :: hay' =>
      last_index_from (i + 1) hay' needle
        (if starts_with needle hay then i else acc)
  end.

Definition lastIndexOf (hay needle : str) : Z := last_index_from 0 hay needle (-1).

(** [match.match(/^- /)] and [match.match(/^\d+\. /)]: without the [m]
    flag, [^] only matches at index 0. *)
Definition test_bullet (s : str) : bool := starts_with (u "- ") s.
Definition test_number (s : str) : bool :=
  let d := take_digits s in (0 <? d)%nat && starts_with (u ". ") (skipn d s).

(** The callback of the last replace. *)
Definition r_wrap : replacer := fun mt _ offset original =>
  let before := firstn offset original in
  let parentUl := lastIndexOf before ul_open in
  let parentOl := lastIndexOf before ol_open in
  let lastListEnd := Z.max (lastIndexOf before ul_close) (lastIndexOf before ol_close) in
  if (lastListEnd <? parentUl)%Z || (lastListEnd <? parentOl)%Z then mt
  else if test_bullet mt then ul_open ++ mt ++ ul_close
  else if test_number mt then ol_open ++ mt ++ ol_close
  else mt.

(** ** The chain *)

Definition pass_bold := replace_all m_bold r_bold.
Definition pass_bullet := replace_all m_bullet r_li.
Definition pass_number := replace_all m_number r_li.
Definition pass_start_ul := replace_all m_start_ul r_start_ul.
Definition pass_end_ul := replace_all m_end_ul r_end_ul.
Definition pass_blank_li := replace_all m_blank_li r_end_ul.
Definition pass_wrap := replace_all m_item r_wrap.

(** The chain without its last call. *)
Definition format_unwrapped (feedback : str) : str :=
  pass_blank_li (pass_end_ul (pass_start_ul
    (pass_number (pass_bullet (pass_bold feedback))))).

(** [__html] of the feedback pane. *)
Definition format (feedback : str) : str := pass_wrap (format_unwrapped feedback).

(** ** Predicates used in the statements *)

(** [p] occurs in [s]. *)
Fixpoint infix (p s : str) : bool :=
  starts_with p s || match s with [] => false | _ :: s' => infix p s' end.

(** The suffixes of [s] that start a line in the sense of [^] under [m]. *)
Fixpoint line_suffixes (prev : option N) (s : str) : list str :=
  (if at_line_start prev then [s] else []) ++
  match s with [] => [] | c :: s' => line_suffixes (Some c) s' end.

(** [a] and [b] differ at a common index. *)
Fixpoint diverges (a b : str) : bool :=
  match a, b with
  | x :: a', y :: b' => negb (x =? y)%N || diverges a' b'
  | _, _ => false
  end.

(** Two blank lines. *)
Definition sep3 : str := nl ++ nl ++ nl.

(** Every closing list tag is preceded by an unmatched opening tag of the
    same kind. *)
Fixpoint closes_matched (nu no : nat) (s : str) : bool :=
  match s with
  | [] => true
  | _ :: s' =>
      if starts_with ul_open s then closes_matched (S nu) no s'
      else if starts_with ol_open s then closes_matched nu (S no) s'
      else if starts_with ul_close s then
        match nu with O => false | S nu' => closes_matched nu' no s' end
      else if starts_with ol_close s then
        match no with O => false | S no' => closes_matched nu no' s' end
      else closes_matched nu no s'
  end.

(** [s.split("\n")] *)
Fixpoint split_lines (s : str) : list str :=
  match s with
  | [] => [[]]
  | c :: s' =>
      if (c =? 10)%N then [] :: split_lines s'
      else match split_lines s' with
           | [] => [[c]]
           | l :: ls => (c :: l) :: ls
           end
  end.

(** The fragments of a line-by-line renderer whose fragment for a line is
    a function of the previous line and the line. *)
Fixpoint emit (frag : option str -> str -> str) (prev : option str) (ls : list str) : str :=
  match ls with
  | [] => []
  | l :: ls' => frag prev l ++ emit frag (Some l) ls'
  end.

(** [fmt] is such a renderer, followed by a closing fragment that depends on
    the last line. *)
Definition lookback1 (fmt : str -> str) : Prop :=
  exists (frag : option str -> str -> str) (fin : str -> str),
    forall s, fmt s = emit frag None (split_lines s) ++ fin (last (split_lines s) []).

(** No [**], no line starting with [- ] or with digits, [.] and a space, and
    none of the three tag sequences the fourth to sixth calls look for. *)
Definition marker_free (s : str) : bool :=
  negb (infix star2 s) &&
  forallb (fun v => negb (test_bullet v) && negb (test_number v)) (line_suffixes None s) &&
  negb (infix (strong_close ++ nl ++ li_open) s) &&
  negb (infix (li_close ++ nl ++ strong_open) s) &&
  negb (infix (li_close ++ nl ++ nl ++ li_open) s).

(** No suffix of [p] can start inside [sep3] and be matched there. *)
Definition sep_safe (p : str) : bool :=
  forallb (fun k => diverges (skipn k p) sep3) (seq 0 (length p)).

Definition wf_matcher (m : matcher) : Prop :=
  forall p t len gs, m p t = Some (len, gs) -> (len <= length t)%nat.

Definition pure_replacer (rp : replacer) : Prop :=
  forall mt gs o1 o2 s1 s2, rp mt gs o1 s1 = rp mt gs o2 s2.

(** ** The component around the renderer

    The state of [App] (its [useState] hooks), the browser's registry of
    object URLs, and the requests in flight.  [generateVideoFeedback] and
    the file reader are outside the repository's code: a request in
    flight ends with the value it resolves to or the value it throws, an
    event of the model. *)

(** The [File] fields the component reads. *)
Record file := mkFile { file_name : str; file_type : str }.

(** What a [catch] clause receives. *)
Inductive thrown :=
| ThrownError (message : str)   (* an [Error] instance *)
| ThrownOther.                  (* anything else *)

Inductive outcome :=
| Answer (text : str)
| Thrown (e : thrown).

Record state := mkState {
  selectedVideoFile : option file;
  videoPreviewUrl : option N;     (* an object URL, by serial number *)
  prompt : str;
  feedback : option str;
  isLoading : bool;
  error : option str;
  live_urls : list N;             (* object URLs not yet revoked *)
  next_url : N;                   (* serial of the next [createObjectURL] *)
  pending : list (file * str)     (* requests in flight: file and prompt *)
}.

(** 'Me d\u00ea feedback sobre como melhorar este v\u00eddeo' *)
Definition default_prompt : str :=
  u "Me d" ++ [234%N] ++ u " feedback sobre como melhorar este v" ++ [237%N] ++ u "deo".

(** 'Por favor, fa\u00e7a upload de um v\u00eddeo primeiro.' *)
Definition msg_no_video : str :=
  u "Por favor, fa" ++ [231%N] ++ u "a upload de um v" ++ [237%N] ++ u "deo primeiro.".

Definition msg_default_error : str :=
  u "Ocorreu um erro ao gerar o feedback. Tente novamente.".

Definition initial_state : state :=
  mkState None None default_prompt None false None [] 0 [].

Definition revoke_url (url : N) (live : list N) : list N :=
  filter (fun x => negb (x =? url)%N) live.

(** [handleVideoSelected]: record the file, revoke the previous preview
    URL, create one for the new file, clear feedback and error. *)
Definition handleVideoSelected (f : option file) (st : state) : state :=
  let live := match videoPreviewUrl st with
              | Some url => revoke_url url (live_urls st)
              | None => live_urls st
              end in
  match f with
  | Some _ =>
      mkState f (Some (next_url st)) (prompt st) None (isLoading st) None
        (next_url st :: live) (next_url st + 1) (pending st)
  | None =>
      mkState f None (prompt st) None (isLoading st) None live (next_url st) (pending st)
  end.

(** [handleGenerateFeedback] up to its first [await]: without a file it
    only sets the error; otherwise it sets the loading flag, clears error
    and feedback and starts a request with the file and the prompt. *)
Definition handleGenerateFeedback (st : state) : state :=
  match selectedVideoFile st with
  | None =>
      mkState (selectedVideoFile st) (videoPreviewUrl st) (prompt st) (feedback st)
        (isLoading st) (Some msg_no_video) (live_urls st) (next_url st) (pending st)
  | Some f =>
      mkState (selectedVideoFile st) (videoPreviewUrl st) (prompt st) None true None
        (live_urls st) (next_url st) (pending st ++ [(f, prompt st)])
  end.

(** The message set by the [catch] clause. *)
Definition catch_message (e : thrown) : str :=
  match e with
  | ThrownError m => m
  | ThrownOther => msg_default_error
  end.

(** The rest of [handleGenerateFeedback], when the oldest request ends:
    [setFeedback] on success, [setError] in [catch], and [finally]. *)
Definition complete (o : outcome) (st : state) : option state :=
  match pending st with
  | [] => None
  | _ :: rest =>
      Some match o with
           | Answer t =>
               mkState (selectedVideoFile st) (videoPreviewUrl st) (prompt st) (Some t)
                 false (error st) (live_urls st) (next_url st) rest
           | Thrown e =>
               mkState (selectedVideoFile st) (videoPreviewUrl st) (prompt st) (feedback st)
                 false (Some (catch_message e)) (live_urls st) (next_url st) rest
           end
  end.

Definition setPrompt (p : str) (st : state) : state :=
  mkState (selectedVideoFile st) (videoPreviewUrl st) p (feedback st)
    (isLoading st) (error st) (live_urls st) (next_url st) (pending st).

(** [disabled={isLoading || !selectedVideoFile}] *)
Definition button_disabled (st : state) : bool :=
  isLoading st || match selectedVideoFile st with Some _ => false | None => true end.

(** [event.target.files ? event.target.files[0] : null]; indexing an empty
    list gives [undefined], which the handler treats like [null]. *)
Definition first_file (files : option (list file)) : option file :=
  match files with
  | Some (f :: _) => Some f
  | _ => None
  end.

Inductive event :=
| PickFiles (files : option (list file))   (* [handleFileChange] *)
| ClearVideo                               (* [handleClearVideo] *)
| EditPrompt (p : str)                     (* the textarea's [onChange] *)
| ClickGenerate                            (* the generate button *)
| Finish (o : outcome).                    (* a request in flight ends *)

(** One event.  The remove button is only rendered while there is a
    preview, a disabled button fires no click, and a request can only end
    while one is in flight. *)
Definition step (st : state) (ev : event) : option state :=
  match ev with
  | PickFiles fs => Some (handleVideoSelected (first_file fs) st)
  | ClearVideo =>
      match videoPreviewUrl st with
      | Some _ => Some (handleVideoSelected None st)
      | None => Some st
      end
  | EditPrompt p => Some (setPrompt p st)
  | ClickGenerate =>
      if button_disabled st then Some st else Some (handleGenerateFeedback st)
  | Finish o => complete o st
  end.

Inductive reachable : state -> Prop :=
| reach_init : reachable initial_state
| reach_step st ev st' : reachable st -> step st ev = Some st' -> reachable st'.

(** What the right pane shows: [feedback ? <div __html=...> : <p>...]. *)
Inductive pane := FeedbackHtml (html : str) | Placeholder.

Definition feedback_pane (st : state) : pane :=
  match feedback st with
  | Some (c :: s) => FeedbackHtml (format (c :: s))
  | _ => Placeholder
  end.

(** [{error && <div>...</div>}]: the error box is rendered for a non-empty
    message. *)
Definition error_box (st : state) : option str :=
  match error st with
  | Some (c :: s) => Some (c :: s)
  | _ => None
  end.

(** [s.split(sep)] for a one-unit separator. *)
Fixpoint split_on (sep : N) (s : str) : list str :=
  match s with
  | [] => [[]]
  | c :: s' =>
      if (c =? sep)%N then [] :: split_on sep s'
      else match split_on sep s' with
           | [] => [[c]]
           | l :: ls => (c :: l) :: ls
           end
  end.

(** The reader's [result] when [loadend] fires: a string, or [null]. *)
Inductive reader_result := ResultString (s : str) | ResultOther.

Definition msg_convert_failed : str := u "Failed to convert file to base64 string.".

(** How the promise of [convertFileToBase64] is settled. *)
Inductive settle := Resolve (v : option str) | Reject (e : thrown).

(** [reader.onloadend]: resolve with [reader.result.split(',')[1]]
    ([None] is [undefined]) or reject with an [Error]. *)
Definition onloadend (r : reader_result) : settle :=
  match r with
  | ResultString s => Resolve (nth_error (split_on 44 s) 1)
  | ResultOther => Reject (ThrownError msg_convert_failed)
  end.

(** [reader.onerror]: reject with the event, which is not an [Error]. *)
Definition onerror : settle := Reject ThrownOther.

(** How the read started by [readAsDataURL] ends. *)
Inductive read_end :=
| ReadLoaded (data_url : str)  (* [load], then [loadend] with a string result *)
| ReadFailed                   (* [error], then [loadend] with result [null] *)
| ReadAborted.                 (* [abort], then [loadend] with result [null] *)

(** [convertFileToBase64]: the first handler that settles the promise
    wins.  On a failed read [onerror] runs before [onloadend], whose
    [reject] then does nothing.  No handler is set for [abort]. *)
Definition convertFileToBase64 (e : read_end) : settle :=
  match e with
  | ReadLoaded s => onloadend (ResultString s)
  | ReadFailed => onerror
  | ReadAborted => onloadend ResultOther
  end.

(** [services/geminiService.ts], appended to [src/App.tsx]. *)

(** [getGeminiClient]'s message when [VITE_GEMINI_API_KEY] is falsy. *)
Definition msg_no_key : str :=
  u "VITE_GEMINI_API_KEY is not defined in environment variables or missing VITE_ prefix.".

Definition msg_no_text : str := u "No text feedback received from the model.".

Definition failure_prefix : str := u "Failed to generate feedback: ".

Definition failure_suffix : str :=
  u ". Please try again. If the issue persists, ensure your video file is valid and API_KEY is correctly configured.".

(** The message built by the service's [catch]. *)
Definition wrap_failure (m : str) : str := failure_prefix ++ m ++ failure_suffix.

(** What [ai.models.generateContent] throws: an [Error] with its message, or
    another value with its [String(error)]. *)
Inductive api_error := ApiError (message : str) | ApiOther (shown : str).

(** How [ai.models.generateContent] ends: a response with its [text]
    ([None] is [undefined]), or a thrown value. *)
Inductive api_result := ApiResponse (text : option str) | ApiThrows (e : api_error).

(** The service's [try] block: the text, or the message its [catch]
    reads from the caught value ([throw new Error(...)] for a falsy text
    is caught there too). *)
Definition try_generate (api : api_result) : str + str :=
  match api with
  | ApiResponse (Some (c :: t)) => inl (c :: t)
  | ApiResponse _ => inr msg_no_text
  | ApiThrows (ApiError m) => inr m
  | ApiThrows (ApiOther shown) => inr shown
  end.

(** [generateVideoFeedback] with the key [key] and the model call ending
    with [api]; [getGeminiClient] runs before the [try] block, so its
    error is not wrapped. *)
Definition generateVideoFeedback (key : option str) (api : api_result) : outcome :=
  match key with
  | None | Some [] => Thrown (ThrownError msg_no_key)
  | Some _ =>
      match try_generate api with
      | inl t => Answer t
      | inr m => Thrown (ThrownError (wrap_failure m))
      end
  end.

(** The outcome of the [try] block of [handleGenerateFeedback] when the
    read ends with [r] and the service, called with the extracted base64
    text, ends with [svc]. *)
Definition request_outcome (r : read_end) (svc : option str -> outcome) : outcome :=
  match convertFileToBase64 r with
  | Resolve b64 => svc b64
  | Reject e => Thrown e
  end.

(** Events one after the other. *)
Fixpoint run (st : state) (evs : list event) : option state :=
  match evs with
  | [] => Some st
  | ev :: evs' =>
      match step st ev with
      | Some st' => run st' evs'
      | None => None
      end
  end.

(** No [','] in [s]. *)
Definition no_comma (s : str) : bool := forallb (fun c => negb (c =? 44)%N) s.

(** No line terminator in [s]: [s] is one line. *)
Definition one_line (s : str) : bool := forallb (fun c => negb (is_lt c)) s.

Definition url_list (o : option N) : list N :=
  match o with Some x => [x] | None => [] end.

(** What every reachable state satisfies. *)
Definition app_inv (st : state) : Prop :=
  live_urls st = url_list (videoPreviewUrl st) /\
  (forall x, videoPreviewUrl st = Some x -> (x < next_url st)%N) /\
  (videoPreviewUrl st = None <-> selectedVideoFile st = None) /\
  (isLoading st = true <-> pending st <> []) /\
  (length (pending st) <= 1)%nat /\
  (pending st <> [] -> feedback st = None /\ error st = None) /\
  (feedback st = None \/ error st = None).

(** ** Predicates on the list structure of an output *)

(** The text of [t] before the first [cl]; [None] when [cl] does not occur. *)
Fixpoint before_first (cl t : str) : option str :=
  if starts_with cl t then Some []
  else match t with
       | [] => None
       | c :: t' => match before_first cl t' with Some w => Some (c :: w) | None => None end
       end.

(** [x] occurs in [s] and [y] occurs after it. *)
Fixpoint ordered_in (x y s : str) : bool :=
  (starts_with x s && infix y (skipn (length x) s)) ||
  match s with [] => false | _ :: s' => ordered_in x y s' end.

(** Some opening tag [op] is followed by [x] and then by [y] before the
    next closing tag [cl] (before the end when none follows). *)
Fixpoint container_with (op cl x y s : str) : bool :=
  (starts_with op s &&
   match before_first cl (skipn (length op) s) with
   | Some seg => ordered_in x y seg
   | None => ordered_in x y (skipn (length op) s)
   end) ||
  match s with [] => false | _ :: s' => container_with op cl x y s' end.

(** No proper suffix of [p] is a prefix of [p]: occurrences of [p] cannot
    overlap. *)
Definition no_border (p : str) : bool :=
  forallb (fun k => diverges (skipn k p) p) (seq 1 (length p - 1)).

Example ex_bold : format (u "**Bold** x **y**") = u "<strong>Bold</strong> x <strong>y</strong>".
Proof. vm_compute. reflexivity. Qed.

Example ex_h : format (u "**H**" ++ nl ++ u "- a" ++ nl ++ u "12. b" ++ nl ++ u "**K**")
  = u "<strong>H</strong><ul><li>a</li>" ++ nl ++ u "<li>b</li></ul><strong>K</strong>".
Proof. vm_compute. reflexivity. Qed.

(** ** The scan *)

Lemma last_char_cons p c l : last_char p (c :: l) = last_char (Some c) l.
Proof. reflexivity. Qed.

Lemma last_char_app p a b : last_char p (a ++ b) = last_char (last_char p a) b.
Proof. unfold last_char. apply fold_left_app. Qed.

Section Scan.
Variable m : matcher.
Variable rp : replacer.
Hypothesis Hwf : wf_matcher m.

Lemma go_fuel orig f1 f2 p t off :
  (length t < f1)%nat -> (length t < f2)%nat ->
  go m rp orig f1 p t off = go m rp orig f2 p t off.
Proof.
  revert f2 p t off.
  induction f1 as [|f1 IH]; intros f2 p t off H1 H2; [lia|].
  destruct f2 as [|f2]; [lia|].
  simpl. destruct (m p t) as [[len gs]|] eqn:E.
  - pose proof (Hwf _ _ _ _ E) as Hl.
    f_equal. destruct len as [|len].
    + destruct t as [|c t]; [reflexivity|].
      f_equal. apply IH; simpl in *; lia.
    + apply IH; rewrite length_skipn; lia.
  - destruct t as [|c t]; [reflexivity|].
    f_equal. apply IH; simpl in *; lia.
Qed.

Lemma go_pure orig1 orig2 f p t off1 off2 :
  pure_replacer rp ->
  go m rp orig1 f p t off1 = go m rp orig2 f p t off2.
Proof.
  intros Hp. revert p t off1 off2.
  induction f as [|f IH]; intros p t off1 off2; [reflexivity|].
  simpl. destruct (m p t) as [[len gs]|]; [|destruct t; [reflexivity|f_equal; apply IH]].
  rewrite (Hp _ _ off1 off2 orig1 orig2). f_equal.
  destruct len; [destruct t; [reflexivity|f_equal; apply IH]|apply IH].
Qed.

Lemma go_prev orig f p q t off :
  m p t = m q t -> go m rp orig f p t off = go m rp orig f q t off.
Proof.
  intros Hpq. destruct f as [|f]; [reflexivity|].
  simpl. rewrite Hpq. destruct (m q t) as [[len gs]|] eqn:E; [|reflexivity].
  f_equal. destruct len as [|len]; [reflexivity|].
  pose proof (Hwf _ _ _ _ E) as Hl.
  destruct t as [|c t]; [simpl in Hl; lia|].
  simpl firstn. rewrite !last_char_cons. reflexivity.
Qed.

(** A scan whose replacements give the matched text back changes nothing. *)
Lemma go_id orig f p x off :
  (length x < f)%nat ->
  (forall pre v len gs, x = pre ++ v -> m (last_char p pre) v = Some (len, gs) ->
     rp (firstn len v) gs (off + length pre) orig = firstn len v) ->
  go m rp orig f p x off = x.
Proof.
  revert p x off.
  induction f as [|f IH]; intros p x off Hf Hx; [lia|].
  simpl. destruct (m p x) as [[len gs]|] eqn:E.
  - pose proof (Hwf _ _ _ _ E) as Hl.
    pose proof (Hx [] x len gs eq_refl E) as Hr. simpl in Hr.
    rewrite Nat.add_0_r in Hr. rewrite Hr.
    destruct len as [|len].
    + destruct x as [|c x]; [reflexivity|]. simpl. f_equal.
      apply IH; [simpl in Hf; lia|].
      intros pre v len' gs' -> E'.
      replace (S off + length pre)%nat with (off + length (c :: pre))%nat by (simpl; lia).
      exact (Hx (c :: pre) v len' gs' eq_refl E').
    + rewrite IH.
      * apply firstn_skipn.
      * rewrite length_skipn. lia.
      * intros pre v len' gs' Hs E'.
        assert (Hx' : x = (firstn (S len) x ++ pre) ++ v)
          by (rewrite <- app_assoc, <- Hs; symmetry; apply firstn_skipn).
        rewrite <- last_char_app in E'.
        specialize (Hx _ _ len' gs' Hx').
        replace (off + S len + length pre)%nat
          with (off + length (firstn (S len) x ++ pre))%nat
          by (rewrite length_app, length_firstn; lia).
        exact (Hx E').
  - destruct x as [|c x]; [reflexivity|]. f_equal.
    apply IH; [simpl in Hf; lia|].
    intros pre v len' gs' -> E'.
    replace (S off + length pre)%nat with (off + length (c :: pre))%nat by (simpl; lia).
    exact (Hx (c :: pre) v len' gs' eq_refl E').
Qed.
Lemma go_step orig f p t off :
  go m rp orig (S f) p t off =
  match m p t with
  | Some (len, gs) =>
      rp (firstn len t) gs off orig ++
      match len with
      | O => match t with [] => [] | c :: t' => c :: go m rp orig f (Some c) t' (S off) end
      | S _ => go m rp orig f (last_char p (firstn len t)) (skipn len t) (off + len)
      end
  | None => match t with [] => [] | c :: t' => c :: go m rp orig f (Some c) t' (S off) end
  end.
Proof. reflexivity. Qed.

(** The scan of [x ++ y] is the scan of [x] followed by the scan of [y]
    when no match that starts in [x] looks into [y]. *)
Lemma go_app orig f p x y off :
  (forall q, m q [] = None) ->
  (length (x ++ y) < f)%nat ->
  (forall pre v, x = pre ++ v -> v <> [] ->
     m (last_char p pre) (v ++ y) = m (last_char p pre) v) ->
  go m rp orig f p (x ++ y) off =
  go m rp orig f p x off ++ go m rp orig f (last_char p x) y (off + length x).
Proof.
  intros Hnil. revert p x off.
  induction f as [|f IH]; intros p x off Hf Hx; [lia|].
  destruct x as [|c x].
  - simpl. rewrite Hnil, Nat.add_0_r. reflexivity.
  - assert (E0 : m p ((c :: x) ++ y) = m p (c :: x))
      by exact (Hx [] (c :: x) eq_refl ltac:(discriminate)).
    assert (Hy : (length y < f)%nat) by (rewrite length_app in Hf; simpl in Hf; lia).
    assert (Hsub : forall pre v, x = pre ++ v -> v <> [] ->
              m (last_char (Some c) pre) (v ++ y) = m (last_char (Some c) pre) v)
      by (intros pre v -> Hv; exact (Hx (c :: pre) v eq_refl Hv)).
    rewrite (go_step orig f p ((c :: x) ++ y) off), (go_step orig f p (c :: x) off), E0.
    destruct (m p (c :: x)) as [[len gs]|] eqn:E.
    + pose proof (Hwf _ _ _ _ E) as Hl.
      destruct len as [|len].
      * cbn [firstn app]. rewrite <- app_assoc. f_equal. cbn [app]. f_equal.
        rewrite IH; [|rewrite length_app in *; simpl in Hf; lia|exact Hsub].
        f_equal. rewrite (go_fuel orig (S f) f); [|lia|lia].
        f_equal. simpl. lia.
      * rewrite firstn_app, skipn_app.
        replace (S len - length (c :: x))%nat with 0%nat by lia.
        rewrite firstn_O, skipn_O, app_nil_r, <- app_assoc. f_equal.
        rewrite IH.
        -- f_equal.
           rewrite (go_fuel orig (S f) f); [|lia|lia].
           rewrite <- last_char_app, firstn_skipn. f_equal.
           rewrite length_skipn. lia.
        -- rewrite length_app, length_skipn. rewrite length_app in Hf. lia.
        -- intros pre v Hs Hv.
           rewrite <- !last_char_app.
           apply Hx; [|exact Hv].
           rewrite <- app_assoc, <- Hs. symmetry. apply firstn_skipn.
    + cbn [app]. f_equal.
      rewrite IH; [|rewrite length_app in *; simpl in Hf; lia|exact Hsub].
      f_equal. rewrite (go_fuel orig (S f) f); [|lia|lia].
      f_equal. simpl. lia.
Qed.
End Scan.

(** ** Whole-string replacement *)

Section ReplaceAll.
Variable m : matcher.
Variable rp : replacer.
Hypothesis Hwf : wf_matcher m.

Lemma replace_all_id s :
  (forall pre v len gs, s = pre ++ v -> m (last_char None pre) v = Some (len, gs) ->
     rp (firstn len v) gs (length pre) s = firstn len v) ->
  replace_all m rp s = s.
Proof. intros H. unfold replace_all. apply go_id; [exact Hwf|lia|exact H]. Qed.

Lemma replace_all_nomatch s :
  (forall pre v, s = pre ++ v -> m (last_char None pre) v = None) ->
  replace_all m rp s = s.
Proof.
  intros H. apply replace_all_id. intros pre v len gs Hs E.
  rewrite (H pre v Hs) in E. discriminate.
Qed.

Hypothesis Hnil : forall q, m q [] = None.
Hypothesis Hpure : pure_replacer rp.
Hypothesis Hstable : forall q v z, m q (v ++ sep3 ++ z) = m q v.
Hypothesis Hlf : forall q z, m q (10%N :: z) = None.
Hypothesis Hprev : forall z, m (Some 10%N) z = m None z.

Lemma sep3_suffix pre v : sep3 = pre ++ v -> v <> [] -> exists v', v = 10%N :: v'.
Proof.
  intros Hs Hv. destruct v as [|c v]; [congruence|]. exists v.
  assert (Hin : In c sep3) by (rewrite Hs; apply in_or_app; right; left; reflexivity).
  unfold sep3, nl in Hin. simpl in Hin. intuition congruence.
Qed.

(** The scan does not cross two blank lines. *)
Lemma replace_all_sep x t :
  replace_all m rp (x ++ sep3 ++ t) = replace_all m rp x ++ sep3 ++ replace_all m rp t.
Proof.
  unfold replace_all.
  rewrite go_app; [|exact Hwf|exact Hnil|lia|].
  2: { intros pre v _ _. apply Hstable. }
  f_equal.
  { rewrite (go_pure m rp (x ++ sep3 ++ t) x _ _ _ 0 0); [|exact Hpure].
    apply go_fuel; [exact Hwf|rewrite !length_app in *; lia|lia]. }
  rewrite go_app; [|exact Hwf|exact Hnil|rewrite !length_app; lia|].
  2: { intros pre v Hs Hv. destruct (sep3_suffix pre v Hs Hv) as [v' ->].
       rewrite <- app_comm_cons, !Hlf. reflexivity. }
  f_equal.
  { apply go_id; [exact Hwf|rewrite !length_app; unfold sep3; simpl; lia|].
    intros pre v len gs Hs E. destruct v as [|c v]; [rewrite Hnil in E; discriminate|].
    destruct (sep3_suffix pre (c :: v) Hs ltac:(discriminate)) as [v' Hv'].
    injection Hv' as -> ->. rewrite Hlf in E. discriminate. }
  replace (last_char (last_char None x) sep3) with (Some 10%N) by reflexivity.
  rewrite (go_prev m rp Hwf _ _ (Some 10%N) None t); [|apply Hprev].
  rewrite (go_pure m rp (x ++ sep3 ++ t) t _ _ t (0 + length x + length sep3) 0); [|exact Hpure].
  apply go_fuel; [exact Hwf|rewrite !length_app; lia|lia].
Qed.
End ReplaceAll.

(** ** Strings *)

Lemma starts_with_len p t : starts_with p t = true -> (length p <= length t)%nat.
Proof.
  revert t; induction p as [|a p IH]; intros [|b t] H; simpl in *; try lia; try discriminate.
  apply andb_prop in H as [_ H]. specialize (IH t H). lia.
Qed.

Lemma starts_with_inv p t : starts_with p t = true -> exists r, t = p ++ r.
Proof.
  revert t; induction p as [|a p IH]; intros [|b t] H; simpl in *; try discriminate.
  - exists []. reflexivity.
  - exists (b :: t). reflexivity.
  - apply andb_prop in H as [Hab H]. apply N.eqb_eq in Hab as ->.
    destruct (IH t H) as [r ->]. exists r. reflexivity.
Qed.

Lemma starts_with_app p r : starts_with p (p ++ r) = true.
Proof. induction p as [|a p IH]; simpl; [reflexivity|]. rewrite N.eqb_refl. exact IH. Qed.

Lemma diverges_starts a b z : diverges a b = true -> starts_with a (b ++ z) = false.
Proof.
  revert b; induction a as [|x a IH]; intros [|y b] H; simpl in *; try discriminate.
  destruct (x =? y)%N; simpl in *; [apply IH, H|reflexivity].
Qed.

Lemma firstn_app_le {A} k (v w : list A) : (k <= length v)%nat -> firstn k (v ++ w) = firstn k v.
Proof. intros H. rewrite firstn_app. replace (k - length v)%nat with 0%nat by lia. apply app_nil_r. Qed.

Lemma skipn_app_le {A} k (v w : list A) : (k <= length v)%nat -> skipn k (v ++ w) = skipn k v ++ w.
Proof. intros H. rewrite skipn_app. replace (k - length v)%nat with 0%nat by lia. reflexivity. Qed.

Section Sep.
Variable sep : str.

Lemma starts_with_sep p v z :
  (forall k, (k < length p)%nat -> diverges (skipn k p) sep = true) ->
  starts_with p (v ++ sep ++ z) = starts_with p v.
Proof.
  revert p; induction v as [|c v IH]; intros p Hp.
  - destruct p as [|a p]; [reflexivity|].
    simpl app. rewrite diverges_starts; [reflexivity|].
    apply (Hp 0%nat). simpl; lia.
  - destruct p as [|a p]; [reflexivity|].
    simpl. f_equal. apply IH. intros k Hk.
    apply (Hp (S k)). simpl; lia.
Qed.
End Sep.

Lemma sep_safe_spec p : sep_safe p = true ->
  forall k, (k < length p)%nat -> diverges (skipn k p) sep3 = true.
Proof.
  unfold sep_safe. rewrite forallb_forall. intros H k Hk.
  apply H, in_seq. lia.
Qed.

Lemma lazy_until_len p t k : lazy_until p t = Some k -> (k + length p <= length t)%nat.
Proof.
  revert k; induction t as [|c t IH]; intros k H; simpl in H.
  - destruct (starts_with p []) eqn:E; [|discriminate].
    injection H as <-. apply starts_with_len in E. simpl in *. lia.
  - destruct (starts_with p (c :: t)) eqn:E.
    + injection H as <-. apply starts_with_len in E. simpl in *. lia.
    + destruct (is_lt c); [discriminate|].
      destruct (lazy_until p t) as [k'|]; [|discriminate].
      injection H as <-. specialize (IH k' eq_refl). simpl. lia.
Qed.

Lemma lazy_until_cons p c t :
  lazy_until p (c :: t) =
  if starts_with p (c :: t) then Some O
  else if is_lt c then None
  else match lazy_until p t with Some k => Some (S k) | None => None end.
Proof. reflexivity. Qed.

Lemma lazy_until_sep p v z : p <> [] -> sep_safe p = true ->
  lazy_until p (v ++ sep3 ++ z) = lazy_until p v.
Proof.
  intros Hne Hs. pose proof (sep_safe_spec p Hs) as Hk.
  induction v as [|c v IH].
  - simpl app. destruct p as [|a p]; [congruence|].
    assert (Hd : starts_with (a :: p) (sep3 ++ z) = false)
      by (apply diverges_starts, (Hk 0%nat); simpl; lia).
    unfold sep3, nl in *. simpl in Hd |- *. rewrite Hd. reflexivity.
  - rewrite <- app_comm_cons, !lazy_until_cons.
    rewrite (app_comm_cons v (sep3 ++ z) c), (starts_with_sep sep3 p (c :: v) z Hk).
    rewrite IH. reflexivity.
Qed.

Lemma take_line_len t : (take_line t <= length t)%nat.
Proof. induction t as [|c t IH]; simpl; [lia|destruct (is_lt c); simpl; lia]. Qed.

Lemma take_line_sep v z : take_line (v ++ sep3 ++ z) = take_line v.
Proof.
  induction v as [|c v IH]; [reflexivity|].
  cbn [app take_line take_digits]. rewrite IH. reflexivity.
Qed.

Lemma take_digits_len t : (take_digits t <= length t)%nat.
Proof. induction t as [|c t IH]; simpl; [lia|destruct (is_digit c); simpl; lia]. Qed.

Lemma take_digits_sep v z : take_digits (v ++ sep3 ++ z) = take_digits v.
Proof.
  induction v as [|c v IH]; [reflexivity|].
  cbn [app take_line take_digits]. rewrite IH. reflexivity.
Qed.

Lemma at_line_start_lf : at_line_start (Some 10%N) = at_line_start None.
Proof. reflexivity. Qed.

(** ** The matchers *)

Ltac sw_len H := let L := fresh "L" in pose proof (starts_with_len _ _ H) as L; simpl in L.

Lemma m_bold_wf : wf_matcher m_bold.
Proof.
  intros p t len gs H. unfold m_bold in H.
  destruct (starts_with star2 t) eqn:E; [|discriminate]. sw_len E.
  destruct (lazy_until star2 (skipn 2 t)) as [k|] eqn:E2; [|discriminate].
  injection H as <- _. apply lazy_until_len in E2. rewrite length_skipn in E2.
  simpl in E2. lia.
Qed.

Lemma m_bullet_wf : wf_matcher m_bullet.
Proof.
  intros p t len gs H. unfold m_bullet in H.
  destruct (at_line_start p && starts_with (u "- ") t) eqn:E; [|discriminate].
  apply andb_prop in E as [_ E]. sw_len E.
  pose proof (take_line_len (skipn 2 t)) as T. rewrite length_skipn in T.
  injection H as <- _. simpl in *. lia.
Qed.

Lemma m_number_wf : wf_matcher m_number.
Proof.
  intros p t len gs H. unfold m_number in H.
  destruct (at_line_start p && (0 <? take_digits t)%nat
            && starts_with (u ". ") (skipn (take_digits t) t)) eqn:E; [|discriminate].
  apply andb_prop in E as [_ E]. sw_len E. rewrite length_skipn in L.
  pose proof (take_line_len (skipn (take_digits t + 2) t)) as T.
  rewrite length_skipn in T. injection H as <- _. lia.
Qed.

Lemma m_lit_wf p g : wf_matcher (m_lit p g).
Proof.
  intros q t len gs H. unfold m_lit in H.
  destruct (starts_with p t) eqn:E; [|discriminate].
  injection H as <- _. apply starts_with_len, E.
Qed.

Lemma m_item_wf : wf_matcher m_item.
Proof.
  intros p t len gs H. unfold m_item in H.
  destruct (starts_with li_open t) eqn:E; [|discriminate]. sw_len E.
  destruct (lazy_until li_close (skipn 4 t)) as [k|] eqn:E2; [|discriminate].
  injection H as <- _. apply lazy_until_len in E2. rewrite length_skipn in E2.
  simpl in E2. lia.
Qed.

Lemma m_bold_stable q v z : m_bold q (v ++ sep3 ++ z) = m_bold q v.
Proof.
  unfold m_bold.
  rewrite (starts_with_sep sep3); [|apply sep_safe_spec; reflexivity].
  destruct (starts_with star2 v) eqn:E; [|reflexivity]. sw_len E.
  rewrite skipn_app_le by lia.
  rewrite lazy_until_sep by (discriminate || reflexivity).
  destruct (lazy_until star2 (skipn 2 v)) as [k|] eqn:E2; [|reflexivity].
  apply lazy_until_len in E2.
  rewrite firstn_app_le by lia. reflexivity.
Qed.

Lemma m_bullet_stable q v z : m_bullet q (v ++ sep3 ++ z) = m_bullet q v.
Proof.
  unfold m_bullet.
  rewrite (starts_with_sep sep3); [|apply sep_safe_spec; reflexivity].
  destruct (at_line_start q && starts_with (u "- ") v) eqn:E; [|reflexivity].
  apply andb_prop in E as [_ E]. sw_len E.
  rewrite skipn_app_le by lia. rewrite take_line_sep.
  rewrite firstn_app_le by apply take_line_len. reflexivity.
Qed.

Lemma m_number_stable q v z : m_number q (v ++ sep3 ++ z) = m_number q v.
Proof.
  unfold m_number. rewrite take_digits_sep.
  pose proof (take_digits_len v) as D.
  rewrite skipn_app_le by exact D.
  rewrite (starts_with_sep sep3); [|apply sep_safe_spec; reflexivity].
  destruct (at_line_start q && (0 <? take_digits v)%nat
            && starts_with (u ". ") (skipn (take_digits v) v)) eqn:E; [|reflexivity].
  apply andb_prop in E as [_ E]. sw_len E. rewrite length_skipn in L.
  rewrite skipn_app_le by lia. rewrite take_line_sep.
  rewrite firstn_app_le by apply take_line_len. reflexivity.
Qed.

Lemma m_lit_stable p g q v z : sep_safe p = true -> m_lit p g q (v ++ sep3 ++ z) = m_lit p g q v.
Proof.
  intros Hs. unfold m_lit.
  rewrite (starts_with_sep sep3); [reflexivity|apply sep_safe_spec, Hs].
Qed.

Ltac matcher_eval := intros; cbv beta delta [m_bold m_bullet m_number m_lit m_start_ul m_end_ul m_blank_li];
  simpl; rewrite ?andb_false_r; reflexivity.

Lemma pass_bold_sep x t : pass_bold (x ++ sep3 ++ t) = pass_bold x ++ sep3 ++ pass_bold t.
Proof.
  apply replace_all_sep;
    [apply m_bold_wf|matcher_eval|intros ? ? ? ? ? ?; reflexivity|apply m_bold_stable
    |matcher_eval|matcher_eval].
Qed.

Lemma pass_bullet_sep x t : pass_bullet (x ++ sep3 ++ t) = pass_bullet x ++ sep3 ++ pass_bullet t.
Proof.
  apply replace_all_sep;
    [apply m_bullet_wf|matcher_eval|intros ? ? ? ? ? ?; reflexivity|apply m_bullet_stable
    |matcher_eval|matcher_eval].
Qed.

Lemma pass_number_sep x t : pass_number (x ++ sep3 ++ t) = pass_number x ++ sep3 ++ pass_number t.
Proof.
  apply replace_all_sep;
    [apply m_number_wf|matcher_eval|intros ? ? ? ? ? ?; reflexivity|apply m_number_stable
    |matcher_eval|matcher_eval].
Qed.

Lemma pass_start_ul_sep x t :
  pass_start_ul (x ++ sep3 ++ t) = pass_start_ul x ++ sep3 ++ pass_start_ul t.
Proof.
  apply replace_all_sep;
    [apply m_lit_wf|matcher_eval|intros ? ? ? ? ? ?; reflexivity
    |intros; apply m_lit_stable; reflexivity|matcher_eval|matcher_eval].
Qed.

Lemma pass_end_ul_sep x t :
  pass_end_ul (x ++ sep3 ++ t) = pass_end_ul x ++ sep3 ++ pass_end_ul t.
Proof.
  apply replace_all_sep;
    [apply m_lit_wf|matcher_eval|intros ? ? ? ? ? ?; reflexivity
    |intros; apply m_lit_stable; reflexivity|matcher_eval|matcher_eval].
Qed.

Lemma pass_blank_li_sep x t :
  pass_blank_li (x ++ sep3 ++ t) = pass_blank_li x ++ sep3 ++ pass_blank_li t.
Proof.
  apply replace_all_sep;
    [apply m_lit_wf|matcher_eval|intros ? ? ? ? ? ?; reflexivity
    |intros; apply m_lit_stable; reflexivity|matcher_eval|matcher_eval].
Qed.

(** The callback gives back every text that starts with an item tag. *)
Lemma r_wrap_item mt gs offset original :
  starts_with li_open mt = true -> r_wrap mt gs offset original = mt.
Proof.
  intros H. apply starts_with_inv in H as [r ->].
  unfold r_wrap. destruct (_ || _); [reflexivity|].
  reflexivity.
Qed.

Lemma pass_wrap_id s : pass_wrap s = s.
Proof.
  apply replace_all_id; [apply m_item_wf|].
  intros pre v len gs _ E. apply r_wrap_item.
  unfold m_item in E.
  destruct (starts_with li_open v) eqn:E1; [|discriminate].
  destruct (lazy_until li_close (skipn 4 v)) as [k|]; [|discriminate].
  injection E as <- _.
  apply starts_with_inv in E1 as [r ->].
  rewrite firstn_app, firstn_all2 by (simpl; lia).
  apply starts_with_app.
Qed.

Lemma pass_unwrapped_sep x t :
  format_unwrapped (x ++ sep3 ++ t) = format_unwrapped x ++ sep3 ++ format_unwrapped t.
Proof.
  unfold format_unwrapped.
  rewrite pass_bold_sep, pass_bullet_sep, pass_number_sep, pass_start_ul_sep,
    pass_end_ul_sep, pass_blank_li_sep. reflexivity.
Qed.

Lemma infix_app p pre w : infix p (pre ++ w) = false -> starts_with p w = false.
Proof.
  induction pre as [|a pre IH]; simpl; intros H.
  - destruct w; simpl in H; apply orb_false_iff in H; tauto.
  - apply orb_false_iff in H as [_ H]. apply IH, H.
Qed.

Lemma line_suffixes_in q pre w :
  at_line_start (last_char q pre) = true -> In w (line_suffixes q (pre ++ w)).
Proof.
  revert q; induction pre as [|c pre IH]; intros q H.
  - simpl in H. destruct w; simpl; rewrite H; left; reflexivity.
  - simpl. apply in_or_app. right. apply IH, H.
Qed.

Lemma lazy_until_infix p t k : lazy_until p t = Some k -> infix p t = true.
Proof.
  revert k; induction t as [|c t IH]; intros k H; simpl in *.
  - destruct (starts_with p []); [reflexivity|discriminate].
  - destruct (starts_with p (c :: t)); [reflexivity|].
    destruct (is_lt c); [discriminate|].
    destruct (lazy_until p t) as [k'|] eqn:E; [|discriminate].
    apply (IH k' eq_refl).
Qed.

Lemma no_lt_cons a c : forallb (fun x => negb (is_lt x)) (a :: c) = true ->
  is_lt a = false /\ forallb (fun x => negb (is_lt x)) c = true.
Proof. simpl. intros H. apply andb_prop in H as [H1 H2]. destruct (is_lt a); easy. Qed.

(** The lazy close is the first [**] after the opening one. *)
Lemma lazy_until_bold c r :
  forallb (fun x => negb (is_lt x)) c = true -> infix star2 (c ++ u "*") = false ->
  lazy_until star2 (c ++ star2 ++ r) = Some (length c).
Proof.
  induction c as [|a c IH]; intros Hlt Hinf; [reflexivity|].
  apply no_lt_cons in Hlt as [Ha Hc].
  simpl in Hinf. apply orb_false_iff in Hinf as [Hs Hinf].
  rewrite <- app_comm_cons, lazy_until_cons, Ha.
  assert (Hs' : starts_with star2 (a :: c ++ star2 ++ r) = false).
  { destruct c as [|b c]; exact Hs. }
  rewrite Hs', IH by assumption. reflexivity.
Qed.

Lemma pass_bold_cons_match c r :
  forallb (fun x => negb (is_lt x)) c = true -> infix star2 (c ++ u "*") = false ->
  pass_bold (star2 ++ c ++ star2 ++ r) = strong_open ++ c ++ strong_close ++ pass_bold r.
Proof.
  intros Hlt Hinf. unfold pass_bold, replace_all.
  set (s := star2 ++ c ++ star2 ++ r).
  assert (Hm : m_bold None s = Some (4 + length c, [c])%nat).
  { unfold m_bold, s. rewrite starts_with_app.
    change (skipn 2 (star2 ++ c ++ star2 ++ r)) with (c ++ star2 ++ r).
    rewrite lazy_until_bold by assumption.
    rewrite firstn_app, firstn_all, Nat.sub_diag, firstn_O, app_nil_r. reflexivity. }
  rewrite go_step, Hm.
  replace (4 + length c)%nat with (S (3 + length c)) by lia.
  unfold r_bold, group1. simpl nth. rewrite <- !app_assoc. f_equal. f_equal. f_equal.
  assert (Hk : skipn (S (3 + length c)) s = r).
  { unfold s. rewrite (app_assoc c star2 r), (app_assoc star2 (c ++ star2) r).
    rewrite skipn_app_le by (rewrite !length_app; simpl; lia).
    rewrite skipn_all2 by (rewrite !length_app; simpl; lia). reflexivity. }
  rewrite Hk.
  rewrite (go_prev m_bold r_bold m_bold_wf _ _ _ None); [|reflexivity].
  rewrite (go_pure m_bold r_bold s r _ _ _ _ 0); [|intros ? ? ? ? ? ?; reflexivity].
  apply go_fuel; [apply m_bold_wf|unfold s; rewrite !length_app; simpl; lia|lia].
Qed.

Lemma infix_cons p c t : infix p (c :: t) = starts_with p (c :: t) || infix p t.
Proof. reflexivity. Qed.

Lemma star2_eq : star2 = [42%N; 42%N].
Proof. reflexivity. Qed.

Lemma pass_bold_unpaired v : infix star2 v = false -> pass_bold (star2 ++ v) = star2 ++ v.
Proof.
  intros Hv. apply replace_all_nomatch; [apply m_bold_wf|].
  intros pre w Hs. unfold m_bold. rewrite star2_eq in *.
  destruct pre as [|a [|b pre]].
  - simpl in Hs. subst w. simpl.
    destruct (lazy_until [42%N; 42%N] v) eqn:E; [|reflexivity].
    apply lazy_until_infix in E. congruence.
  - injection Hs as <- Hw. subst w.
    destruct v as [|x v]; [reflexivity|].
    cbn [starts_with]. rewrite N.eqb_refl.
    destruct (N.eqb_spec 42 x) as [<-|_]; [|reflexivity].
    cbn [andb skipn].
    rewrite infix_cons in Hv. apply orb_false_iff in Hv as [_ Hv].
    destruct (lazy_until [42%N; 42%N] v) eqn:E; [|reflexivity].
    apply lazy_until_infix in E. congruence.
  - injection Hs as <- <- Hw. subst v.
    rewrite (infix_app _ _ _ Hv). reflexivity.
Qed.

Lemma pass_nomatch_lit p g rp s : infix p s = false -> replace_all (m_lit p g) rp s = s.
Proof.
  intros H. apply replace_all_nomatch; [apply m_lit_wf|].
  intros pre w ->. unfold m_lit. rewrite (infix_app _ _ _ H). reflexivity.
Qed.

Lemma format_marker_free_aux s : marker_free s = true -> format s = s.
Proof.
  intros H. unfold marker_free in H.
  apply andb_prop in H as [H H5]; apply andb_prop in H as [H H4];
    apply andb_prop in H as [H H3]; apply andb_prop in H as [H1 H2].
  apply negb_true_iff in H1, H3, H4, H5. rewrite forallb_forall in H2.
  assert (E1 : pass_bold s = s).
  { apply replace_all_nomatch; [apply m_bold_wf|]. intros pre w ->.
    unfold m_bold. rewrite (infix_app _ _ _ H1). reflexivity. }
  assert (E2 : pass_bullet s = s).
  { apply replace_all_nomatch; [apply m_bullet_wf|]. intros pre w Hs.
    unfold m_bullet. destruct (at_line_start (last_char None pre)) eqn:Ea; [|reflexivity].
    subst s. pose proof (H2 w (line_suffixes_in None pre w Ea)) as Hw.
    apply andb_prop in Hw as [Hb _]. apply negb_true_iff in Hb.
    unfold test_bullet in Hb. rewrite Hb. reflexivity. }
  assert (E3 : pass_number s = s).
  { apply replace_all_nomatch; [apply m_number_wf|]. intros pre w Hs.
    unfold m_number. cbv zeta. destruct (at_line_start (last_char None pre)) eqn:Ea; [|reflexivity].
    subst s. pose proof (H2 w (line_suffixes_in None pre w Ea)) as Hw.
    apply andb_prop in Hw as [_ Hn]. apply negb_true_iff in Hn.
    unfold test_number in Hn. cbv zeta in Hn. cbn [andb]. rewrite Hn. reflexivity. }
  unfold format, format_unwrapped.
  rewrite E1, E2, E3. unfold pass_start_ul, pass_end_ul, pass_blank_li, m_start_ul, m_end_ul, m_blank_li.
  rewrite (pass_nomatch_lit _ _ _ s H3), (pass_nomatch_lit _ _ _ s H4),
    (pass_nomatch_lit _ _ _ s H5).
  apply pass_wrap_id.
Qed.

(** ** Lines, prefixes without a match, and single occurrences *)

Lemma one_line_app a b : one_line (a ++ b) = one_line a && one_line b.
Proof. apply forallb_app. Qed.

Lemma one_line_not_start s pre v :
  one_line s = true -> s = pre ++ v -> pre <> [] -> at_line_start (last_char None pre) = false.
Proof.
  intros Hs -> Hp. destruct (exists_last Hp) as (pre' & c & ->).
  rewrite last_char_app. cbn.
  rewrite !one_line_app in Hs. apply andb_prop in Hs as [Hs _]. apply andb_prop in Hs as [_ Hc].
  cbn in Hc. destruct (is_lt c); [discriminate|reflexivity].
Qed.

Lemma infix_one_line p s : one_line s = true -> In 10%N p -> infix p s = false.
Proof.
  intros Hs Hp. induction s as [|c s IH].
  - destruct p; [contradiction|reflexivity].
  - rewrite infix_cons. cbn [one_line forallb] in Hs. apply andb_prop in Hs as [Hc Hs'].
    rewrite (IH Hs'), orb_false_r.
    destruct (starts_with p (c :: s)) eqn:E; [|reflexivity].
    apply starts_with_inv in E as [r Er].
    assert (Hin : In 10%N (c :: s)) by (rewrite Er; apply in_or_app; left; exact Hp).
    assert (Hall : one_line (c :: s) = true) by (cbn [one_line forallb]; rewrite Hc; exact Hs').
    unfold one_line in Hall. rewrite forallb_forall in Hall. apply Hall in Hin. discriminate.
Qed.

Section Skip.
Variable m : matcher.
Variable rp : replacer.

(** The scan copies a prefix [x] at which no match starts. *)
Lemma go_skip orig f p x r off :
  (length x < f)%nat ->
  (forall pre v, x = pre ++ v -> v <> [] -> m (last_char p pre) (v ++ r) = None) ->
  go m rp orig f p (x ++ r) off =
  x ++ go m rp orig (f - length x) (last_char p x) r (off + length x).
Proof.
  revert f p off. induction x as [|c x IH]; intros f p off Hf Hx.
  - cbn [app length]. rewrite Nat.sub_0_r, Nat.add_0_r. reflexivity.
  - destruct f as [|f]; [cbn [length] in Hf; lia|].
    assert (E : m p (c :: x ++ r) = None) by exact (Hx [] (c :: x) eq_refl ltac:(discriminate)).
    rewrite <- app_comm_cons, go_step, E. cbn [app]. f_equal.
    rewrite IH.
    + replace (off + length (c :: x))%nat with (S off + length x)%nat by (cbn [length]; lia).
      reflexivity.
    + cbn [length] in Hf. lia.
    + intros pre v -> Hv. exact (Hx (c :: pre) v eq_refl Hv).
Qed.
End Skip.

Lemma nl_suffix pre v : nl = pre ++ v -> v <> [] -> v = nl.
Proof.
  intros Hs Hv. destruct pre as [|a pre]; [symmetry; exact Hs|].
  injection Hs as _ Hs. symmetry in Hs. apply app_eq_nil in Hs as [_ ->]. congruence.
Qed.

Section ReplaceLf.
Variable m : matcher.
Variable rp : replacer.
Hypothesis Hwf : wf_matcher m.
Hypothesis Hnil : forall q, m q [] = None.
Hypothesis Hpure : pure_replacer rp.
Hypothesis Hstable : forall q v z, m q (v ++ nl ++ z) = m q v.
Hypothesis Hlf : forall q z, m q (10%N :: z) = None.
Hypothesis Hprev : forall z, m (Some 10%N) z = m None z.

(** The scan does not cross a line break. *)
Lemma replace_all_lf x t :
  replace_all m rp (x ++ nl ++ t) = replace_all m rp x ++ nl ++ replace_all m rp t.
Proof.
  unfold replace_all.
  rewrite go_app; [|exact Hwf|exact Hnil|lia|].
  2: { intros pre v _ _. apply Hstable. }
  f_equal.
  { rewrite (go_pure m rp (x ++ nl ++ t) x _ _ _ 0 0); [|exact Hpure].
    apply go_fuel; [exact Hwf|rewrite !length_app in *; lia|lia]. }
  rewrite go_app; [|exact Hwf|exact Hnil|rewrite !length_app; lia|].
  2: { intros pre v Hs Hv. rewrite (nl_suffix pre v Hs Hv). unfold nl. cbn [app].
       rewrite !Hlf. reflexivity. }
  f_equal.
  { apply go_id; [exact Hwf|rewrite !length_app; unfold nl; simpl; lia|].
    intros pre v len gs Hs E. destruct v as [|c v]; [rewrite Hnil in E; discriminate|].
    rewrite (nl_suffix pre (c :: v) Hs ltac:(discriminate)) in E.
    unfold nl in E. rewrite Hlf in E. discriminate. }
  replace (last_char (last_char None x) nl) with (Some 10%N) by reflexivity.
  rewrite (go_prev m rp Hwf _ _ (Some 10%N) None t); [|apply Hprev].
  rewrite (go_pure m rp (x ++ nl ++ t) t _ _ t (0 + length x + length nl) 0); [|exact Hpure].
  apply go_fuel; [exact Hwf|rewrite !length_app; lia|lia].
Qed.
End ReplaceLf.

Lemma nl_free p : forallb (fun c => negb (c =? 10)%N) p = true ->
  forall k, (k < length p)%nat -> diverges (skipn k p) nl = true.
Proof.
  induction p as [|a p IH]; intros H k Hk; [cbn in Hk; lia|].
  cbn [forallb] in H. apply andb_prop in H as [Ha H].
  destruct k as [|k].
  - cbn. rewrite Ha. reflexivity.
  - apply IH; [exact H|cbn in Hk; lia].
Qed.

Lemma lazy_until_lf p v z : p <> [] -> forallb (fun c => negb (c =? 10)%N) p = true ->
  lazy_until p (v ++ nl ++ z) = lazy_until p v.
Proof.
  intros Hne Hs. pose proof (nl_free p Hs) as Hk.
  induction v as [|c v IH].
  - simpl app. destruct p as [|a p]; [congruence|].
    assert (Hd : starts_with (a :: p) (nl ++ z) = false)
      by (apply diverges_starts, (Hk 0%nat); simpl; lia).
    unfold nl in *. simpl in Hd |- *. rewrite Hd. reflexivity.
  - rewrite <- app_comm_cons, !lazy_until_cons.
    rewrite (app_comm_cons v (nl ++ z) c), (starts_with_sep nl p (c :: v) z Hk).
    rewrite IH. reflexivity.
Qed.

Lemma take_line_lf v z : take_line (v ++ nl ++ z) = take_line v.
Proof.
  induction v as [|c v IH]; [reflexivity|].
  cbn [app take_line]. rewrite IH. reflexivity.
Qed.

Lemma take_digits_lf v z : take_digits (v ++ nl ++ z) = take_digits v.
Proof.
  induction v as [|c v IH]; [reflexivity|].
  cbn [app take_digits]. rewrite IH. reflexivity.
Qed.

Lemma m_bold_lf q v z : m_bold q (v ++ nl ++ z) = m_bold q v.
Proof.
  unfold m_bold.
  rewrite (starts_with_sep nl); [|apply nl_free; reflexivity].
  destruct (starts_with star2 v) eqn:E; [|reflexivity]. sw_len E.
  rewrite skipn_app_le by lia.
  rewrite lazy_until_lf by (discriminate || reflexivity).
  destruct (lazy_until star2 (skipn 2 v)) as [k|] eqn:E2; [|reflexivity].
  apply lazy_until_len in E2.
  rewrite firstn_app_le by lia. reflexivity.
Qed.

Lemma m_bullet_lf q v z : m_bullet q (v ++ nl ++ z) = m_bullet q v.
Proof.
  unfold m_bullet.
  rewrite (starts_with_sep nl); [|apply nl_free; reflexivity].
  destruct (at_line_start q && starts_with (u "- ") v) eqn:E; [|reflexivity].
  apply andb_prop in E as [_ E]. sw_len E.
  rewrite skipn_app_le by lia. rewrite take_line_lf.
  rewrite firstn_app_le by apply take_line_len. reflexivity.
Qed.

Lemma m_number_lf q v z : m_number q (v ++ nl ++ z) = m_number q v.
Proof.
  unfold m_number. rewrite take_digits_lf.
  pose proof (take_digits_len v) as D.
  rewrite skipn_app_le by exact D.
  rewrite (starts_with_sep nl); [|apply nl_free; reflexivity].
  destruct (at_line_start q && (0 <? take_digits v)%nat
            && starts_with (u ". ") (skipn (take_digits v) v)) eqn:E; [|reflexivity].
  apply andb_prop in E as [_ E]. sw_len E. rewrite length_skipn in L.
  rewrite skipn_app_le by lia. rewrite take_line_lf.
  rewrite firstn_app_le by apply take_line_len. reflexivity.
Qed.

Lemma pass_bold_lf x t : pass_bold (x ++ nl ++ t) = pass_bold x ++ nl ++ pass_bold t.
Proof.
  apply replace_all_lf;
    [apply m_bold_wf|matcher_eval|intros ? ? ? ? ? ?; reflexivity|apply m_bold_lf
    |matcher_eval|matcher_eval].
Qed.

Lemma pass_bullet_lf x t : pass_bullet (x ++ nl ++ t) = pass_bullet x ++ nl ++ pass_bullet t.
Proof.
  apply replace_all_lf;
    [apply m_bullet_wf|matcher_eval|intros ? ? ? ? ? ?; reflexivity|apply m_bullet_lf
    |matcher_eval|matcher_eval].
Qed.

Lemma pass_number_lf x t : pass_number (x ++ nl ++ t) = pass_number x ++ nl ++ pass_number t.
Proof.
  apply replace_all_lf;
    [apply m_number_wf|matcher_eval|intros ? ? ? ? ? ?; reflexivity|apply m_number_lf
    |matcher_eval|matcher_eval].
Qed.

(** A prefix test is not changed by appending text that no suffix of the
    pattern starts. *)
Lemma starts_with_lookahead p v w :
  (forall k, (k < length p)%nat -> starts_with (skipn k p) w = false) ->
  starts_with p (v ++ w) = starts_with p v.
Proof.
  revert p; induction v as [|c v IH]; intros p Hp.
  - destruct p as [|a p]; [reflexivity|].
    transitivity false; [exact (Hp 0%nat ltac:(cbn; lia))|reflexivity].
  - destruct p as [|a p]; [reflexivity|].
    cbn [app starts_with]. f_equal. apply IH. intros k Hk.
    exact (Hp (S k) ltac:(cbn; lia)).
Qed.

(** A literal pattern: a tail [w] in which no occurrence starts, and into
    which no occurrence starting earlier reaches, is copied. *)
Lemma replace_all_lit_tail pat g rp x w :
  pure_replacer rp ->
  (forall k, (k < length pat)%nat -> starts_with (skipn k pat) w = false) ->
  (forall pre v, w = pre ++ v -> starts_with pat v = false) ->
  replace_all (m_lit pat g) rp (x ++ w) = replace_all (m_lit pat g) rp x ++ w.
Proof.
  intros Hpure Hk Hs. unfold replace_all.
  assert (Hnil : forall q, m_lit pat g q [] = None).
  { intros q. unfold m_lit. rewrite (Hs w [] (eq_sym (app_nil_r w))). reflexivity. }
  rewrite go_app; [|apply m_lit_wf|exact Hnil|lia|].
  2: { intros pre v _ _. unfold m_lit. rewrite (starts_with_lookahead pat v w Hk). reflexivity. }
  f_equal.
  { rewrite (go_pure _ _ (x ++ w) x _ _ _ 0 0) by exact Hpure.
    apply go_fuel; [apply m_lit_wf|rewrite length_app in *; lia|lia]. }
  apply go_id; [apply m_lit_wf|rewrite length_app; lia|].
  intros pre v len gs Hw E. unfold m_lit in E. rewrite (Hs pre v Hw) in E. discriminate.
Qed.

(** The same for a tail made of a line break and one line. *)
Lemma lit_tail_line pat g rp x p :
  pure_replacer rp -> one_line p = true -> In 10%N pat ->
  (forall k, (k < length pat)%nat -> starts_with (skipn k pat) (nl ++ p) = false) ->
  replace_all (m_lit pat g) rp (x ++ nl ++ p) = replace_all (m_lit pat g) rp x ++ nl ++ p.
Proof.
  intros Hpure Hp Hin Hk. apply replace_all_lit_tail; [exact Hpure|exact Hk|].
  intros pre v Hw. destruct pre as [|c pre].
  - cbn [app] in Hw. rewrite <- Hw. destruct pat as [|a pat]; [contradiction|].
    exact (Hk 0%nat ltac:(cbn; lia)).
  - injection Hw as _ Hw. apply (infix_app pat pre v). rewrite <- Hw.
    apply infix_one_line; assumption.
Qed.

Lemma one_line_lf q p : one_line p = true -> starts_with (10%N :: q) p = false.
Proof.
  destruct p as [|c p]; [reflexivity|].
  cbn [one_line forallb]. intros H. apply andb_prop in H as [Hc _].
  cbn [starts_with]. unfold is_lt in Hc.
  destruct (N.eqb_spec 10 c) as [<-|_]; [discriminate|reflexivity].
Qed.

(** The suffix conditions of [lit_tail_line], one suffix at a time. *)
Ltac tail_cases H1 H2 H3 :=
  intros k Hk;
  repeat (destruct k as [|k]; [vm_compute; first [reflexivity|exact H1|exact H2|exact H3]|]);
  vm_compute in Hk; lia.

Lemma pass_bold_line p : infix star2 p = false -> pass_bold p = p.
Proof.
  intros H. apply replace_all_nomatch; [apply m_bold_wf|]. intros pre w ->.
  unfold m_bold. rewrite (infix_app _ _ _ H). reflexivity.
Qed.

Lemma pass_bullet_line p : one_line p = true -> test_bullet p = false -> pass_bullet p = p.
Proof.
  intros Hp Hb. apply replace_all_nomatch; [apply m_bullet_wf|]. intros pre w Hs.
  unfold m_bullet. destruct pre as [|c pre].
  - cbn [app] in Hs. subst w. unfold test_bullet in Hb. rewrite Hb. reflexivity.
  - rewrite (one_line_not_start p (c :: pre) w Hp Hs ltac:(discriminate)). reflexivity.
Qed.

Lemma pass_number_line p : one_line p = true -> test_number p = false -> pass_number p = p.
Proof.
  intros Hp Hb. apply replace_all_nomatch; [apply m_number_wf|]. intros pre w Hs.
  unfold m_number. cbv zeta. destruct pre as [|c pre].
  - cbn [app] in Hs. subst w. unfold test_number in Hb. cbv zeta in Hb.
    cbn [last_char fold_left at_line_start andb]. rewrite Hb. reflexivity.
  - rewrite (one_line_not_start p (c :: pre) w Hp Hs ltac:(discriminate)). reflexivity.
Qed.

(** Occurrences of a pattern without a border cannot overlap. *)
Lemma starts_with_border p c v z :
  (forall k, (1 <= k < length p)%nat -> diverges (skipn k p) p = true) ->
  starts_with p ((c :: v) ++ p ++ z) = starts_with p (c :: v).
Proof.
  intros Hb. destruct p as [|a p']; [reflexivity|].
  cbn [app starts_with]. f_equal.
  apply (starts_with_sep (a :: p')). intros k Hk. apply (Hb (S k)). cbn in Hk |- *. lia.
Qed.

Lemma no_border_spec p : no_border p = true ->
  forall k, (1 <= k < length p)%nat -> diverges (skipn k p) p = true.
Proof.
  unfold no_border. rewrite forallb_forall. intros H k Hk.
  apply H, in_seq. lia.
Qed.

(** A literal pattern without a border: each occurrence is replaced, and
    the scan on either side of it is the scan of that side alone. *)
Lemma replace_all_lit_occ pat g rp x y :
  pure_replacer rp -> no_border pat = true -> pat <> [] ->
  replace_all (m_lit pat g) rp (x ++ pat ++ y) =
  replace_all (m_lit pat g) rp x ++ rp pat [firstn g pat] 0 [] ++ replace_all (m_lit pat g) rp y.
Proof.
  intros Hpure Hb Hne. pose proof (no_border_spec pat Hb) as Hk.
  assert (Hnil : forall q, m_lit pat g q [] = None).
  { intros q. unfold m_lit. destruct pat; [congruence|reflexivity]. }
  unfold replace_all.
  rewrite go_app; [|apply m_lit_wf|exact Hnil|lia|].
  2: { intros pre v _ Hv. destruct v as [|c v]; [congruence|].
       unfold m_lit. rewrite (starts_with_border pat c v y Hk). reflexivity. }
  f_equal.
  { rewrite (go_pure _ _ (x ++ pat ++ y) x _ _ _ 0 0) by exact Hpure.
    apply go_fuel; [apply m_lit_wf|rewrite !length_app in *; lia|lia]. }
  destruct (length pat) as [|n] eqn:Ep; [destruct pat; [congruence|discriminate]|].
  remember (S (length (x ++ pat ++ y))) as f eqn:Ef.
  destruct f as [|f]; [discriminate|].
  rewrite go_step. unfold m_lit at 1. rewrite starts_with_app, Ep.
  rewrite <- Ep, firstn_app, firstn_all, Nat.sub_diag, firstn_O, app_nil_r.
  rewrite skipn_app, skipn_all, Nat.sub_diag, skipn_O. cbn [app].
  rewrite (Hpure pat [firstn g pat] _ 0 (x ++ pat ++ y) []). f_equal.
  rewrite Ep.
  rewrite (go_prev _ _ (m_lit_wf pat g) _ _ _ None); [|reflexivity].
  rewrite (go_pure _ _ (x ++ pat ++ y) y _ _ _ _ 0) by exact Hpure.
  apply go_fuel; [apply m_lit_wf|rewrite !length_app in Ef; injection Ef; lia|lia].
Qed.

(** The first call leaves a prefix with no [**] in place, also when its last
    code unit is a [*]-free neighbour of the rest. *)
Lemma pass_bold_skip x r :
  (forall pre v, x = pre ++ v -> v <> [] -> starts_with star2 (v ++ r) = false \/
     (starts_with star2 (v ++ r) = true /\ lazy_until star2 (skipn 2 (v ++ r)) = None)) ->
  pass_bold (x ++ r) = x ++ pass_bold r.
Proof.
  intros Hx. unfold pass_bold, replace_all.
  rewrite go_skip.
  - f_equal. rewrite (go_prev _ _ m_bold_wf _ _ _ None); [|reflexivity].
    rewrite (go_pure _ _ (x ++ r) r _ _ _ _ 0); [|intros ? ? ? ? ? ?; reflexivity].
    apply go_fuel; [apply m_bold_wf|rewrite length_app; lia|lia].
  - rewrite length_app. lia.
  - intros pre v Hs Hv. unfold m_bold.
    destruct (Hx pre v Hs Hv) as [E|[E1 E2]]; [rewrite E; reflexivity|].
    rewrite E1, E2. reflexivity.
Qed.

Lemma star2_text x r pre v :
  infix star2 (x ++ u "*") = false -> x = pre ++ v -> v <> [] -> starts_with star2 (v ++ r) = false.
Proof.
  intros H -> Hv. rewrite <- app_assoc in H. apply infix_app in H.
  replace (u "*") with [42%N] in H by reflexivity. rewrite star2_eq in *.
  destruct v as [|c [|d v]]; [congruence| |]; cbn [app starts_with] in H |- *.
  - destruct (42 =? c)%N; [|reflexivity]. cbn in H. discriminate.
  - exact H.
Qed.

(** ** The claims *)

(** C1: for "- a\n- b" the items [<li>a</li>] and [<li>b</li>] come out
    in order, but no unordered-list container holds both (amended claim). *)
Theorem bullets_not_grouped :
  ordered_in (u "<li>a</li>") (u "<li>b</li>") (format (u "- a" ++ nl ++ u "- b")) = true /\
  container_with ul_open ul_close (u "<li>a</li>") (u "<li>b</li>")
    (format (u "- a" ++ nl ++ u "- b")) = false.
Proof. split; vm_compute; reflexivity. Qed.

(** C1, counterexample: no [<ul>] of the output of "- a\n- b" is followed
    by both items before its [</ul>]. *)
Lemma bullets_not_grouped_counterexample :
  container_with ul_open ul_close (u "<li>a</li>") (u "<li>b</li>")
    (format (u "- a" ++ nl ++ u "- b")) = false.
Proof. vm_compute. reflexivity. Qed.

(** C2: the fifth call replaces every [</li>\n<strong>] by
    [</li></ul><strong>], whatever comes before it, so an item line followed
    by a bold line gets a [</ul>] although no [<ul>] was opened; for
    "- a\n**b**" the chain before its last call gives
    [<li>a</li></ul><strong>b</strong>], and the output closes a list that
    was never opened (amended claim). *)
Theorem stray_list_close :
  (forall x y, pass_end_ul (x ++ li_close ++ nl ++ strong_open ++ y) =
               pass_end_ul x ++ li_close ++ ul_close ++ strong_open ++ pass_end_ul y) /\
  format_unwrapped (u "- a" ++ nl ++ u "**b**") = u "<li>a</li></ul><strong>b</strong>" /\
  closes_matched 0 0 (format (u "- a" ++ nl ++ u "**b**")) = false.
Proof.
  split; [|split; vm_compute; reflexivity].
  intros x y.
  replace (x ++ li_close ++ nl ++ strong_open ++ y)
    with (x ++ (li_close ++ nl ++ strong_open) ++ y) by (rewrite <- !app_assoc; reflexivity).
  unfold pass_end_ul, m_end_ul.
  rewrite replace_all_lit_occ; [reflexivity|intros ? ? ? ? ? ?; reflexivity
    |vm_compute; reflexivity|discriminate].
Qed.

(** C2, counterexample: the output of "- a\n**b**" has a closing list tag
    with no earlier opening tag. *)
Lemma stray_list_close_counterexample :
  closes_matched 0 0 (format (u "- a" ++ nl ++ u "**b**")) = false.
Proof. vm_compute. reflexivity. Qed.



(** C4: for "1. a\n2. b" the items [<li>a</li>] and [<li>b</li>] come out
    in order, but no ordered-list container holds both (amended claim). *)
Theorem numbered_not_grouped :
  ordered_in (u "<li>a</li>") (u "<li>b</li>") (format (u "1. a" ++ nl ++ u "2. b")) = true /\
  container_with ol_open ol_close (u "<li>a</li>") (u "<li>b</li>")
    (format (u "1. a" ++ nl ++ u "2. b")) = false.
Proof. split; vm_compute; reflexivity. Qed.

(** C4, counterexample: no [<ol>] of the output of "1. a\n2. b" is
    followed by both items before its [</ol>]. *)
Lemma numbered_not_grouped_counterexample :
  container_with ol_open ol_close (u "<li>a</li>") (u "<li>b</li>")
    (format (u "1. a" ++ nl ++ u "2. b")) = false.
Proof. vm_compute. reflexivity. Qed.

(** C5: a plain line [p] (one line, no [**], not starting with [- ], with
    digits, [.] and a space, with [<li>] or with [<strong>]) after any text
    [x] is left as it is by every call of the chain before the last one:
    none of them emits a closing tag for it, and the last call receives the
    output for [x] followed by the line break and [p] (amended claim). *)
Theorem plain_after_item (x p : str) :
  one_line p = true -> infix star2 p = false -> test_bullet p = false ->
  test_number p = false -> starts_with li_open p = false -> starts_with strong_open p = false ->
  format_unwrapped (x ++ nl ++ p) = format_unwrapped x ++ nl ++ p /\
  format (x ++ nl ++ p) = pass_wrap (format_unwrapped x ++ nl ++ p).
Proof.
  intros Hp Hs Hb Hn Hli Hst.
  assert (E : format_unwrapped (x ++ nl ++ p) = format_unwrapped x ++ nl ++ p).
  { unfold format_unwrapped.
    rewrite pass_bold_lf, (pass_bold_line p Hs).
    rewrite pass_bullet_lf, (pass_bullet_line p Hp Hb).
    rewrite pass_number_lf, (pass_number_line p Hp Hn).
    pose proof (one_line_lf (u "<li>") p Hp) as Hl.
    unfold pass_start_ul, pass_end_ul, pass_blank_li, m_start_ul, m_end_ul, m_blank_li.
    rewrite (lit_tail_line _ _ _ _ p); [|intros ? ? ? ? ? ?; reflexivity|exact Hp
      |apply in_or_app; right; left; reflexivity|tail_cases Hli Hst Hl].
    rewrite (lit_tail_line _ _ _ _ p); [|intros ? ? ? ? ? ?; reflexivity|exact Hp
      |apply in_or_app; right; left; reflexivity|tail_cases Hli Hst Hl].
    rewrite (lit_tail_line _ _ _ _ p); [reflexivity|intros ? ? ? ? ? ?; reflexivity|exact Hp
      |apply in_or_app; right; left; reflexivity|tail_cases Hli Hst Hl]. }
  split; [exact E|]. unfold format. rewrite E. reflexivity.
Qed.

Lemma plain_after_item_witness :
  one_line (u "plain") = true /\ infix star2 (u "plain") = false /\
  test_bullet (u "plain") = false /\ test_number (u "plain") = false /\
  starts_with li_open (u "plain") = false /\ starts_with strong_open (u "plain") = false /\
  format_unwrapped ((u "**H**" ++ nl ++ u "- a") ++ nl ++ u "plain") =
    format_unwrapped (u "**H**" ++ nl ++ u "- a") ++ nl ++ u "plain" /\
  format ((u "**H**" ++ nl ++ u "- a") ++ nl ++ u "plain") =
    pass_wrap (format_unwrapped (u "**H**" ++ nl ++ u "- a") ++ nl ++ u "plain").
Proof.
  do 6 (split; [vm_compute; reflexivity|]).
  apply plain_after_item; vm_compute; reflexivity.
Defined.

(** C5, counterexample: after the list opened in "**H**\n- a", the line
    "plain" follows the item with no closing tag before it. *)
Lemma plain_after_item_counterexample :
  format (u "**H**" ++ nl ++ u "- a" ++ nl ++ u "plain")
  = u "<strong>H</strong><ul><li>a</li>" ++ nl ++ u "plain" /\
  infix ul_close (format (u "**H**" ++ nl ++ u "- a" ++ nl ++ u "plain")) = false.
Proof. split; vm_compute; reflexivity. Qed.

(** C6: text with no [**], no line (in the sense of the JavaScript line
    terminators) starting with [- ] or digits, [.] and a space, and none of
    the tag sequences [</strong>\n<li>], [</li>\n<strong>], [</li>\n\n<li>]
    is returned unchanged (amended claim). *)
Theorem format_marker_free (s : str) : marker_free s = true -> format s = s.
Proof. apply format_marker_free_aux. Qed.

Lemma format_marker_free_witness :
  let s := u "a - b" ++ nl ++ u "x*y" ++ nl ++ u "<p>2.5</p>" in
  marker_free s = true /\ format s = s.
Proof.
  intros s. split; [vm_compute; reflexivity|].
  apply (format_marker_free s). vm_compute. reflexivity.
Defined.

(** C6, counterexample: "</li>\n<strong>" has no bold or list marker but is
    changed. *)
Lemma format_marker_free_counterexample :
  let s := li_close ++ nl ++ strong_open in
  infix star2 s = false /\
  forallb (fun v => negb (test_bullet v) && negb (test_number v)) (line_suffixes None s) = true /\
  format s <> s.
Proof.
  intros s. split; [|split].
  - vm_compute. reflexivity.
  - vm_compute. reflexivity.
  - intros H. vm_compute in H. discriminate H.
Qed.

(** C7: the first call replaces [**c**] by a bold span around [c], where
    the closing [**] is the first one after the opening one on the same
    line; text before it with no [**] is copied and the scan goes on after
    the span, so every such span of a line is replaced; a [**] with no
    closing [**] later on its line is left as it is and the scan goes on
    after it; "**Bold**" gives one bold span. *)
Theorem bold_spans :
  (forall x c r, infix star2 (x ++ u "*") = false ->
     forallb (fun x => negb (is_lt x)) c = true -> infix star2 (c ++ u "*") = false ->
     pass_bold (x ++ star2 ++ c ++ star2 ++ r) = x ++ strong_open ++ c ++ strong_close ++ pass_bold r) /\
  (forall x v, infix star2 (x ++ u "*") = false -> lazy_until star2 v = None ->
     starts_with (u "*") v = false ->
     pass_bold (x ++ star2 ++ v) = x ++ star2 ++ pass_bold v) /\
  (forall v, infix star2 v = false -> pass_bold (star2 ++ v) = star2 ++ v) /\
  format (u "**Bold**") = strong_open ++ u "Bold" ++ strong_close /\
  format (u "**a** and **b** **c") = u "<strong>a</strong> and <strong>b</strong> **c".
Proof.
  split; [|split; [|split; [exact pass_bold_unpaired|split; vm_compute; reflexivity]]].
  - intros x c r Hx Hc Hs.
    rewrite pass_bold_skip; [rewrite pass_bold_cons_match by assumption; reflexivity|].
    intros pre v Hxv Hv. left. exact (star2_text x _ pre v Hx Hxv Hv).
  - intros x v Hx Hl Hst.
    rewrite pass_bold_skip.
    2: { intros pre w Hxw Hw. left. exact (star2_text x _ pre w Hx Hxw Hw). }
    f_equal. rewrite pass_bold_skip; [reflexivity|].
    intros pre w Hs Hw. rewrite star2_eq in Hs.
    destruct pre as [|a [|b pre]].
    + cbn [app] in Hs. subst w. right. split; [reflexivity|]. exact Hl.
    + injection Hs as <- Hs. subst w. left. rewrite star2_eq. cbn [app starts_with].
      replace (u "*") with [42%N] in Hst by reflexivity.
      destruct v as [|d v]; [reflexivity|]. cbn [starts_with] in Hst |- *.
      rewrite N.eqb_refl. exact Hst.
    + injection Hs as _ _ Hs. symmetry in Hs. apply app_eq_nil in Hs as [_ ->]. congruence.
Qed.

Lemma bold_spans_witness :
  pass_bold (u "x " ++ star2 ++ u "*x" ++ star2 ++ u " y") =
    u "x " ++ strong_open ++ u "*x" ++ strong_close ++ pass_bold (u " y") /\
  pass_bold (u "x " ++ star2 ++ u "z" ++ nl ++ u "**w**") = u "x " ++ star2 ++ pass_bold (u "z" ++ nl ++ u "**w**") /\
  pass_bold (star2 ++ u "*z") = star2 ++ u "*z".
Proof.
  split; [|split].
  - apply (proj1 bold_spans); vm_compute; reflexivity.
  - apply (proj1 (proj2 bold_spans)); vm_compute; reflexivity.
  - apply (proj1 (proj2 (proj2 bold_spans))); vm_compute; reflexivity.
Defined.

(** C8: the formatter is a total function, and the empty string gives the
    empty string. *)
Theorem format_total_empty : format [] = [] /\ forall s, exists h, format s = h.
Proof. split; [reflexivity|]. intros s. exists (format s). reflexivity. Qed.



(** C10: the last call gives back every item it matches, so the chain
    without it yields the same output on every input. *)
Theorem format_wrap_pass_noop (s : str) : pass_wrap s = s /\ format s = format_unwrapped s.
Proof. split; [apply pass_wrap_id|unfold format; apply pass_wrap_id]. Qed.

(** ** The component *)

Lemma revoke_url_self x : revoke_url x [x] = [].
Proof. unfold revoke_url. simpl. rewrite N.eqb_refl. reflexivity. Qed.

Lemma app_inv_init : app_inv initial_state.
Proof.
  unfold app_inv, initial_state; cbn.
  repeat split; intros; try discriminate; try congruence; try (left; reflexivity); lia.
Qed.

Lemma handleVideoSelected_inv f st : app_inv st -> app_inv (handleVideoSelected f st).
Proof.
  intros (Hl & Hn & Hp & Hi & Hlen & Hfe & Hfx).
  assert (Hlive : match videoPreviewUrl st with
                  | Some url => revoke_url url (live_urls st)
                  | None => live_urls st end = []).
  { rewrite Hl. destruct (videoPreviewUrl st); [apply revoke_url_self|reflexivity]. }
  unfold handleVideoSelected. rewrite Hlive.
  destruct f as [f|]; unfold app_inv; cbn.
  - repeat split; try tauto; try discriminate.
    intros x [= <-]. lia.
  - repeat split; try tauto; try discriminate.
Qed.

Lemma step_inv st ev st' : app_inv st -> step st ev = Some st' -> app_inv st'.
Proof.
  intros H Hs. destruct ev as [fs| |p| |o]; cbn [step] in Hs.
  - injection Hs as <-. apply handleVideoSelected_inv, H.
  - pose proof (handleVideoSelected_inv None st H) as H'.
    destruct (videoPreviewUrl st); injection Hs as <-; [exact H'|exact H].
  - injection Hs as <-. destruct H as (Hl & Hn & Hp & Hi & Hlen & Hfe & Hfx).
    unfold app_inv, setPrompt; cbn. tauto.
  - destruct H as (Hl & Hn & Hp & Hi & Hlen & Hfe & Hfx).
    unfold button_disabled in Hs.
    destruct (isLoading st) eqn:El; cbn in Hs.
    + injection Hs as <-. unfold app_inv. tauto.
    + destruct (selectedVideoFile st) as [f|] eqn:Ef; cbn in Hs; injection Hs as <-.
      * assert (Hnil : pending st = []).
        { destruct (pending st); [reflexivity|]. exfalso. assert (false = true) by (apply Hi; discriminate). discriminate. }
        unfold app_inv, handleGenerateFeedback. rewrite Ef, Hnil. cbn.
        repeat split; try tauto; try discriminate.
        lia.
      * unfold app_inv. rewrite El, Ef. tauto.
  - destruct H as (Hl & Hn & Hp & Hi & Hlen & Hfe & Hfx).
    unfold complete in Hs. destruct (pending st) as [|r rest] eqn:Epend; [discriminate|].
    assert (Hrest : rest = []) by (destruct rest; [reflexivity|cbn in Hlen; lia]).
    subst rest. injection Hs as <-.
    destruct (Hfe ltac:(discriminate)) as [Hf0 He0].
    destruct o as [t|e]; unfold app_inv; cbn; repeat split; try tauto; try discriminate.
    all: lia.
Qed.

Lemma reachable_inv st : reachable st -> app_inv st.
Proof.
  induction 1 as [|st ev st' _ IH Hs]; [apply app_inv_init|].
  exact (step_inv st ev st' IH Hs).
Qed.

Lemma run_reachable st evs st' : reachable st -> run st evs = Some st' -> reachable st'.
Proof.
  revert st. induction evs as [|ev evs IH]; intros st Hr Hrun; cbn in Hrun.
  - injection Hrun as <-. exact Hr.
  - destruct (step st ev) as [s1|] eqn:E; [|discriminate].
    apply (IH s1); [exact (reach_step st ev s1 Hr E)|exact Hrun].
Qed.

(** ** Further properties of the code *)

(** Evaluates the run of a concrete trace, names its last state and
    records that it is reachable. *)
Ltac run_witness Hr :=
  lazymatch goal with
  | |- exists st, run ?s0 ?evs = Some st /\ _ =>
      let r := eval vm_compute in (run s0 evs) in
      lazymatch r with
      | Some ?v =>
          exists v; split; [vm_compute; reflexivity|];
          assert (Hr : reachable v)
            by (apply (run_reachable s0 evs v reach_init); vm_compute; reflexivity)
      end
  end.

(** X1: in every reachable state the only object URL not yet revoked is
    the current preview's: [handleVideoSelected] revokes the previous
    preview URL before it creates the next one. *)
Theorem reachable_object_urls (st : state) :
  reachable st -> live_urls st = url_list (videoPreviewUrl st).
Proof. intros H. apply (reachable_inv _ H). Qed.

Lemma reachable_object_urls_witness :
  exists st, run initial_state
    [PickFiles (Some [mkFile (u "a.mp4") (u "video/mp4")]);
     PickFiles (Some [mkFile (u "b.mp4") (u "video/mp4")])] = Some st /\
  live_urls st = url_list (videoPreviewUrl st).
Proof.
  run_witness Hr. exact (reachable_object_urls _ Hr).
Defined.

(** X2: in every reachable state there is a preview URL exactly when a
    video file is selected. *)
Theorem reachable_preview_iff_file (st : state) :
  reachable st -> (videoPreviewUrl st = None <-> selectedVideoFile st = None).
Proof. intros H. apply (reachable_inv _ H). Qed.

Lemma reachable_preview_iff_file_witness :
  exists st, run initial_state
    [PickFiles (Some [mkFile (u "a.mp4") (u "video/mp4")]); ClearVideo] = Some st /\
  (videoPreviewUrl st = None <-> selectedVideoFile st = None).
Proof.
  run_witness Hr. exact (reachable_preview_iff_file _ Hr).
Defined.

(** X3: in every reachable state at most one request is in flight, and
    the loading flag is set exactly when one is. *)
Theorem reachable_single_request (st : state) :
  reachable st ->
  (isLoading st = true <-> pending st <> []) /\ (length (pending st) <= 1)%nat.
Proof. intros H. destruct (reachable_inv _ H) as (_ & _ & _ & Hi & Hl & _). auto. Qed.

Lemma reachable_single_request_witness :
  exists st, run initial_state
    [PickFiles (Some [mkFile (u "a.mp4") (u "video/mp4")]); ClickGenerate; ClickGenerate] = Some st /\
  (isLoading st = true <-> pending st <> []) /\ (length (pending st) <= 1)%nat.
Proof.
  run_witness Hr. exact (reachable_single_request _ Hr).
Defined.

(** X4: while a request is in flight the pane shows the placeholder, no
    error box is rendered and the generate button is disabled. *)
Theorem loading_shows_nothing (st : state) :
  reachable st -> isLoading st = true ->
  feedback_pane st = Placeholder /\ error_box st = None /\ button_disabled st = true.
Proof.
  intros H Hl. destruct (reachable_inv _ H) as (_ & _ & _ & Hi & _ & Hfe & _).
  destruct (Hfe (proj1 Hi Hl)) as [Hf He].
  unfold feedback_pane, error_box, button_disabled. rewrite Hf, He, Hl. auto.
Qed.

Lemma loading_shows_nothing_witness :
  exists st, run initial_state
    [PickFiles (Some [mkFile (u "a.mp4") (u "video/mp4")]); ClickGenerate;
     Finish (Answer (u "ok")); ClickGenerate] = Some st /\
  isLoading st = true /\
  feedback_pane st = Placeholder /\ error_box st = None /\ button_disabled st = true.
Proof.
  run_witness Hr. split; [reflexivity|]. exact (loading_shows_nothing _ Hr eq_refl).
Defined.

(** X5: in no reachable state are a feedback and an error both set. *)
Theorem feedback_error_exclusive (st : state) :
  reachable st -> feedback st = None \/ error st = None.
Proof. intros H. apply (reachable_inv _ H). Qed.

Lemma feedback_error_exclusive_witness :
  exists st, run initial_state
    [PickFiles (Some [mkFile (u "a.mp4") (u "video/mp4")]); ClickGenerate;
     Finish (Answer (u "ok"))] = Some st /\
  (feedback st = None \/ error st = None).
Proof.
  run_witness Hr. exact (feedback_error_exclusive _ Hr).
Defined.

(** X6: the service [generateVideoFeedback] of the repository never
    answers with an empty text and only throws [Error]s with a non-empty
    message: an empty [text] is turned into an error with its message, a
    model error into the long message of the [catch]. *)
Theorem service_nonempty (key : option str) (api : api_result) :
  match generateVideoFeedback key api with
  | Answer t => t <> []
  | Thrown (ThrownError m) => m <> []
  | Thrown ThrownOther => False
  end.
Proof.
  destruct key as [[|c k]|]; [cbn; discriminate| |cbn; discriminate].
  cbn [generateVideoFeedback].
  destruct api as [[[|c' t]|]|[m|sh]]; cbn [try_generate]; try discriminate;
    unfold wrap_failure, failure_prefix; cbn; discriminate.
Qed.

(** X7: a click on the enabled button starts exactly one request, with the
    selected file and the prompt at the time of the click, and clears the
    feedback and the error. *)
Theorem click_starts_request (st st' : state) :
  reachable st -> button_disabled st = false -> step st ClickGenerate = Some st' ->
  exists f, selectedVideoFile st = Some f /\ pending st' = [(f, prompt st)] /\
    isLoading st' = true /\ feedback st' = None /\ error st' = None.
Proof.
  intros H Hb Hs. destruct (reachable_inv _ H) as (_ & _ & _ & Hi & _ & _ & _).
  cbn [step] in Hs. rewrite Hb in Hs. injection Hs as <-.
  unfold button_disabled in Hb. apply orb_false_iff in Hb as [Hl Hf].
  destruct (selectedVideoFile st) as [f|] eqn:Ef; [|discriminate].
  assert (Hp : pending st = []).
  { destruct (pending st); [reflexivity|].
    assert (isLoading st = true) by (apply Hi; discriminate). congruence. }
  exists f. unfold handleGenerateFeedback. rewrite Ef, Hp. cbn. auto.
Qed.

Lemma click_starts_request_witness :
  exists st, run initial_state [PickFiles (Some [mkFile (u "a.mp4") (u "video/mp4")])] = Some st /\
  button_disabled st = false /\
  exists st', step st ClickGenerate = Some st' /\
  exists f, selectedVideoFile st = Some f /\ pending st' = [(f, prompt st)] /\
    isLoading st' = true /\ feedback st' = None /\ error st' = None.
Proof.
  run_witness Hr. split; [reflexivity|].
  eexists. split; [reflexivity|].
  exact (click_starts_request _ _ Hr eq_refl eq_refl).
Defined.

(** What [handleVideoSelected] sets and what it keeps. *)
Lemma handleVideoSelected_fields (f : option file) (st : state) :
  let st' := handleVideoSelected f st in
  selectedVideoFile st' = f /\ feedback st' = None /\ error st' = None /\
  pending st' = pending st /\ isLoading st' = isLoading st /\ prompt st' = prompt st.
Proof. unfold handleVideoSelected. destruct f; cbn; auto 7. Qed.

Lemma complete_keeps o st st' : complete o st = Some st' ->
  selectedVideoFile st' = selectedVideoFile st /\ videoPreviewUrl st' = videoPreviewUrl st.
Proof.
  unfold complete. destruct (pending st); [discriminate|].
  intros [= <-]. destruct o; cbn; auto.
Qed.

(** X9: when the request in flight resolves with [t], the feedback is [t],
    no error is set, the loading flag is cleared and nothing is left in
    flight. *)
Theorem finish_answer (st st' : state) (t : str) :
  reachable st -> step st (Finish (Answer t)) = Some st' ->
  feedback st' = Some t /\ error st' = None /\ isLoading st' = false /\ pending st' = [].
Proof.
  intros H Hs. destruct (reachable_inv _ H) as (_ & _ & _ & _ & Hlen & Hfe & _).
  cbn [step] in Hs; unfold complete in Hs. destruct (pending st) as [|r rest] eqn:Ep; [discriminate|].
  destruct (Hfe ltac:(discriminate)) as [_ He].
  assert (rest = []) as -> by (destruct rest; [reflexivity|cbn in Hlen; lia]).
  injection Hs as <-. cbn. auto.
Qed.

Lemma finish_answer_witness :
  exists st, run initial_state
    [PickFiles (Some [mkFile (u "a.mp4") (u "video/mp4")]); ClickGenerate] = Some st /\
  exists st', step st (Finish (Answer (u "ok"))) = Some st' /\
  feedback st' = Some (u "ok") /\ error st' = None /\ isLoading st' = false /\ pending st' = [].
Proof.
  run_witness Hr. eexists. split; [reflexivity|].
  exact (finish_answer _ _ _ Hr eq_refl).
Defined.

(** X10: when the request in flight throws [e], the error is the message
    of [e] if it is an [Error] and the fixed fallback message otherwise;
    the feedback stays empty and the loading flag is cleared. *)
Theorem finish_thrown (st st' : state) (e : thrown) :
  reachable st -> step st (Finish (Thrown e)) = Some st' ->
  error st' = Some (match e with ThrownError m => m | ThrownOther => msg_default_error end) /\
  feedback st' = None /\ isLoading st' = false /\ pending st' = [].
Proof.
  intros H Hs. destruct (reachable_inv _ H) as (_ & _ & _ & _ & Hlen & Hfe & _).
  cbn [step] in Hs; unfold complete in Hs. destruct (pending st) as [|r rest] eqn:Ep; [discriminate|].
  destruct (Hfe ltac:(discriminate)) as [Hf _].
  assert (rest = []) as -> by (destruct rest; [reflexivity|cbn in Hlen; lia]).
  injection Hs as <-. cbn. auto.
Qed.

Lemma finish_thrown_witness :
  exists st, run initial_state
    [PickFiles (Some [mkFile (u "a.mp4") (u "video/mp4")]); ClickGenerate] = Some st /\
  exists st', step st (Finish (Thrown ThrownOther)) = Some st' /\
  error st' = Some msg_default_error /\
  feedback st' = None /\ isLoading st' = false /\ pending st' = [].
Proof.
  run_witness Hr. eexists. split; [reflexivity|].
  exact (finish_thrown _ _ _ Hr eq_refl).
Defined.



Lemma error_box_of (st : state) (x m : str) :
  error st = Some x -> error_box st = Some m -> m = x.
Proof. unfold error_box. intros ->. destruct x; congruence. Qed.

(** The values a request of the repository can throw. *)
Lemma request_thrown_cases (r : read_end) (key : option str) (api : api_result) (e : thrown) :
  request_outcome r (fun _ => generateVideoFeedback key api) = Thrown e ->
  e = ThrownOther \/ e = ThrownError msg_convert_failed \/ e = ThrownError msg_no_key \/
  exists d, e = ThrownError (wrap_failure d).
Proof.
  destruct r as [s| |]; cbn [request_outcome convertFileToBase64 onloadend onerror].
  - unfold generateVideoFeedback.
    destruct key as [[|c k]|]; [intros [= <-]; tauto| |intros [= <-]; tauto].
    destruct (try_generate api) as [t|m]; [discriminate|]. intros [= <-]. eauto 6.
  - intros [= <-]. tauto.
  - intros [= <-]. tauto.
Qed.

Lemma request_answer_nonempty (r : read_end) (key : option str) (api : api_result) (t : str) :
  request_outcome r (fun _ => generateVideoFeedback key api) = Answer t -> t <> [].
Proof.
  destruct r as [s| |]; cbn [request_outcome convertFileToBase64 onloadend onerror]; try discriminate.
  unfold generateVideoFeedback.
  destruct key as [[|c k]|]; try discriminate.
  unfold try_generate. destruct api as [[[|c' t']|]|[m|sh]]; try discriminate.
  intros [= <-]. discriminate.
Qed.

(** X8: the messages the error box can show at the end of a request of
    the repository: the default message (failed read), the conversion
    message (a [loadend] without a string result), the missing-key message
    of [getGeminiClient], or the service's wrapped failure message. *)
Theorem request_error_messages (st st' : state) (r : read_end) (key : option str)
    (api : api_result) (m : str) :
  reachable st ->
  step st (Finish (request_outcome r (fun _ => generateVideoFeedback key api))) = Some st' ->
  error_box st' = Some m ->
  m = msg_default_error \/ m = msg_convert_failed \/ m = msg_no_key \/
  exists d, m = wrap_failure d.
Proof.
  intros H Hs Hm.
  destruct (request_outcome r (fun _ => generateVideoFeedback key api)) as [t|e] eqn:Eo.
  - destruct (finish_answer _ _ _ H Hs) as (_ & He & _).
    unfold error_box in Hm. rewrite He in Hm. discriminate.
  - destruct (finish_thrown _ _ _ H Hs) as (He & _).
    rewrite (error_box_of _ _ _ He Hm).
    destruct (request_thrown_cases _ _ _ _ Eo) as [->|[->|[->|[d ->]]]]; eauto 6.
Qed.

Lemma request_error_messages_witness :
  exists st, run initial_state
    [PickFiles (Some [mkFile (u "a.mp4") (u "video/mp4")]); ClickGenerate] = Some st /\
  exists st', step st (Finish (request_outcome (ReadLoaded (u "data:video/mp4;base64,AAAA"))
                 (fun _ => generateVideoFeedback (Some (u "k")) (ApiThrows (ApiError (u "quota")))))) = Some st' /\
  error_box st' = Some (wrap_failure (u "quota")) /\
  (wrap_failure (u "quota") = msg_default_error \/ wrap_failure (u "quota") = msg_convert_failed \/
   wrap_failure (u "quota") = msg_no_key \/ exists d, wrap_failure (u "quota") = wrap_failure d).
Proof.
  run_witness Hr. eexists. split; [reflexivity|]. split; [reflexivity|].
  exact (request_error_messages _ _ (ReadLoaded (u "data:video/mp4;base64,AAAA")) (Some (u "k"))
    (ApiThrows (ApiError (u "quota"))) (wrap_failure (u "quota")) Hr eq_refl eq_refl).
Defined.

(** X12: with the service of the repository, the end of a request always
    leaves something visible: the formatted non-empty feedback with no
    error box, or a non-empty error box with the placeholder. *)
Theorem request_visible_result (st st' : state) (r : read_end) (key : option str)
    (api : api_result) :
  reachable st ->
  step st (Finish (request_outcome r (fun _ => generateVideoFeedback key api))) = Some st' ->
  isLoading st' = false /\
  ((exists t, t <> [] /\ feedback_pane st' = FeedbackHtml (format t) /\ error_box st' = None) \/
   (exists m, m <> [] /\ error_box st' = Some m /\ feedback_pane st' = Placeholder)).
Proof.
  intros H Hs.
  destruct (request_outcome r (fun _ => generateVideoFeedback key api)) as [t|e] eqn:Eo.
  - destruct (finish_answer _ _ _ H Hs) as (Hf & He & Hl & _).
    split; [exact Hl|]. left. exists t.
    pose proof (request_answer_nonempty _ _ _ _ Eo) as Ht.
    unfold feedback_pane, error_box. rewrite Hf, He.
    destruct t as [|c t]; [congruence|]. auto.
  - destruct (finish_thrown _ _ _ H Hs) as (He & Hf & Hl & _).
    split; [exact Hl|]. right.
    unfold feedback_pane, error_box. rewrite Hf, He.
    destruct (request_thrown_cases _ _ _ _ Eo) as [->|[->|[->|[d ->]]]];
      [exists msg_default_error|exists msg_convert_failed|exists msg_no_key|exists (wrap_failure d)];
      (split; [unfold wrap_failure, failure_prefix; cbn; discriminate|]); cbn; auto.
Qed.

Lemma request_visible_result_witness :
  exists st, run initial_state
    [PickFiles (Some [mkFile (u "a.mp4") (u "video/mp4")]); ClickGenerate] = Some st /\
  exists st', step st (Finish (request_outcome (ReadLoaded (u "data:video/mp4;base64,AAAA"))
                 (fun _ => generateVideoFeedback (Some (u "k")) (ApiResponse (Some (u "ok")))))) = Some st' /\
  isLoading st' = false /\
  ((exists t, t <> [] /\ feedback_pane st' = FeedbackHtml (format t) /\ error_box st' = None) \/
   (exists m, m <> [] /\ error_box st' = Some m /\ feedback_pane st' = Placeholder)).
Proof.
  run_witness Hr. eexists. split; [reflexivity|].
  exact (request_visible_result _ _ (ReadLoaded (u "data:video/mp4;base64,AAAA")) (Some (u "k"))
    (ApiResponse (Some (u "ok"))) Hr eq_refl).
Defined.

(** X13: a new video picked while a request is in flight does not stop
    it: its answer is then shown next to the new video, although it was
    computed for the old one. *)
Theorem answer_after_new_video (st st1 st2 : state) (g : file) (gs : list file) (t : str) :
  reachable st -> isLoading st = true ->
  step st (PickFiles (Some (g :: gs))) = Some st1 ->
  step st1 (Finish (Answer t)) = Some st2 ->
  selectedVideoFile st2 = Some g /\ feedback st2 = Some t /\
  (exists f p, pending st = [(f, p)] /\ pending st1 = [(f, p)]).
Proof.
  intros H Hl H1 H2.
  destruct (reachable_inv _ H) as (_ & _ & _ & Hi & Hlen & _).
  assert (H1r : reachable st1) by exact (reach_step _ _ _ H H1).
  destruct (finish_answer _ _ _ H1r H2) as (Hf & _).
  cbn [step] in H1.
  assert (E : st1 = handleVideoSelected (first_file (Some (g :: gs))) st) by congruence.
  subst st1.
  destruct (handleVideoSelected_fields (first_file (Some (g :: gs))) st) as (Hsel & _ & _ & Hp & _).
  split; [|split; [exact Hf|]].
  - cbn [step] in H2. rewrite (proj1 (complete_keeps _ _ _ H2)). exact Hsel.
  - rewrite Hp. apply Hi in Hl.
    destruct (pending st) as [|[f p] [|r rest]]; [congruence| |cbn in Hlen; lia].
    exists f, p. auto.
Qed.

Lemma answer_after_new_video_witness :
  exists st, run initial_state
    [PickFiles (Some [mkFile (u "a.mp4") (u "video/mp4")]); ClickGenerate] = Some st /\
  isLoading st = true /\
  exists st1, step st (PickFiles (Some [mkFile (u "b.mp4") (u "video/mp4")])) = Some st1 /\
  exists st2, step st1 (Finish (Answer (u "ok"))) = Some st2 /\
  selectedVideoFile st2 = Some (mkFile (u "b.mp4") (u "video/mp4")) /\ feedback st2 = Some (u "ok") /\
  (exists f p, pending st = [(f, p)] /\ pending st1 = [(f, p)]).
Proof.
  run_witness Hr. split; [reflexivity|].
  eexists. split; [reflexivity|]. eexists. split; [reflexivity|].
  exact (answer_after_new_video _ _ _ _ _ _ Hr eq_refl eq_refl eq_refl).
Defined.

(** X14: a video removed while a request is in flight does not stop it:
    the request stays pending with the loading flag on, and its answer,
    whatever it is, is then shown with no video selected. *)
Theorem answer_after_clear (st st1 : state) :
  reachable st -> isLoading st = true -> step st ClearVideo = Some st1 ->
  pending st1 = pending st /\ isLoading st1 = true /\
  selectedVideoFile st1 = None /\ videoPreviewUrl st1 = None /\
  forall t, exists st2, step st1 (Finish (Answer t)) = Some st2 /\
    selectedVideoFile st2 = None /\ videoPreviewUrl st2 = None /\ feedback st2 = Some t.
Proof.
  intros H Hl H1.
  destruct (reachable_inv _ H) as (_ & _ & Hpf & Hi & _).
  cbn [step] in H1.
  assert (Hn : pending st1 = pending st /\ isLoading st1 = true /\
               selectedVideoFile st1 = None /\ videoPreviewUrl st1 = None).
  { destruct (videoPreviewUrl st) eqn:Ev.
    - assert (E : st1 = handleVideoSelected None st) by congruence. subst st1.
      destruct (handleVideoSelected_fields None st) as (Hs & _ & _ & Hp & Hl' & _).
      rewrite Hp, Hl', Hs. repeat split; auto.
      all: unfold handleVideoSelected; rewrite Ev; reflexivity.
    - assert (E : st1 = st) by congruence. subst st1.
      repeat split; auto. apply Hpf. reflexivity. }
  destruct Hn as (Hp & Hl1 & Hs1 & Hv1). repeat split; auto.
  intros t. apply Hi in Hl. cbn [step]. unfold complete. rewrite Hp.
  destruct (pending st) as [|q rest]; [congruence|].
  eexists. split; [reflexivity|]. cbn. auto.
Qed.

Lemma answer_after_clear_witness :
  exists st, run initial_state
    [PickFiles (Some [mkFile (u "a.mp4") (u "video/mp4")]); ClickGenerate] = Some st /\
  isLoading st = true /\
  exists st1, step st ClearVideo = Some st1 /\
  pending st1 = pending st /\ isLoading st1 = true /\
  selectedVideoFile st1 = None /\ videoPreviewUrl st1 = None /\
  forall t, exists st2, step st1 (Finish (Answer t)) = Some st2 /\
    selectedVideoFile st2 = None /\ videoPreviewUrl st2 = None /\ feedback st2 = Some t.
Proof.
  run_witness Hr. split; [reflexivity|].
  eexists. split; [reflexivity|].
  exact (answer_after_clear _ _ Hr eq_refl eq_refl).
Defined.

(** X15: a file input change with no file list or an empty one acts as
    removing the video: no file, no preview, every object URL revoked,
    feedback and error cleared. *)
Theorem pick_no_file_clears (st st' : state) (fs : option (list file)) :
  reachable st -> (fs = None \/ fs = Some []) -> step st (PickFiles fs) = Some st' ->
  selectedVideoFile st' = None /\ videoPreviewUrl st' = None /\ live_urls st' = [] /\
  feedback st' = None /\ error st' = None.
Proof.
  intros H Hfs Hs. destruct (reachable_inv _ H) as (Hl & _).
  cbn [step] in Hs.
  assert (E : st' = handleVideoSelected None st)
    by (destruct Hfs as [-> | ->]; cbn [first_file] in Hs; congruence).
  subst st'. unfold handleVideoSelected. rewrite Hl.
  destruct (videoPreviewUrl st); cbn; rewrite ?N.eqb_refl; auto.
Qed.

Lemma pick_no_file_clears_witness :
  exists st, run initial_state [PickFiles (Some [mkFile (u "a.mp4") (u "video/mp4")])] = Some st /\
  (@Some (list file) [] = None \/ @Some (list file) [] = Some []) /\
  exists st', step st (PickFiles (Some [])) = Some st' /\
  selectedVideoFile st' = None /\ videoPreviewUrl st' = None /\ live_urls st' = [] /\
  feedback st' = None /\ error st' = None.
Proof.
  run_witness Hr. split; [right; reflexivity|].
  eexists. split; [reflexivity|].
  exact (pick_no_file_clears _ _ _ Hr (or_intror eq_refl) eq_refl).
Defined.

(** X16: picking a file gives it a new object URL, distinct from every
    URL still live, and leaves that URL as the only live one: the
    previous preview's URL is revoked. *)
Theorem pick_file_fresh_url (st st' : state) (f : file) (fs : list file) :
  reachable st -> step st (PickFiles (Some (f :: fs))) = Some st' ->
  selectedVideoFile st' = Some f /\ videoPreviewUrl st' = Some (next_url st) /\
  ~ In (next_url st) (live_urls st) /\ live_urls st' = [next_url st].
Proof.
  intros H Hs. destruct (reachable_inv _ H) as (Hl & Hn & _).
  cbn [step] in Hs. assert (E : st' = handleVideoSelected (Some f) st) by (cbn [first_file] in Hs; congruence).
  subst st'. unfold handleVideoSelected. rewrite Hl.
  destruct (videoPreviewUrl st) as [x|] eqn:Ev; cbn; rewrite ?revoke_url_self.
  - specialize (Hn x eq_refl). rewrite ?N.eqb_refl. repeat split; auto. intros [Hx|[]]. lia.
  - repeat split; auto.
Qed.

Lemma pick_file_fresh_url_witness :
  exists st, run initial_state [PickFiles (Some [mkFile (u "a.mp4") (u "video/mp4")])] = Some st /\
  exists st', step st (PickFiles (Some [mkFile (u "b.mp4") (u "video/mp4")])) = Some st' /\
  selectedVideoFile st' = Some (mkFile (u "b.mp4") (u "video/mp4")) /\
  videoPreviewUrl st' = Some (next_url st) /\
  ~ In (next_url st) (live_urls st) /\ live_urls st' = [next_url st].
Proof.
  run_witness Hr. eexists. split; [reflexivity|].
  exact (pick_file_fresh_url _ _ _ _ Hr eq_refl).
Defined.

(** X17: when the read of the video fails, [onerror] rejects with the
    error event, which is not an [Error]: the request ends without calling
    the service and the error box shows the default message, whatever the
    service would have answered. *)
Theorem reader_failure_message (st st' : state) (svc : option str -> outcome) :
  reachable st -> step st (Finish (request_outcome ReadFailed svc)) = Some st' ->
  error_box st' = Some msg_default_error /\ feedback_pane st' = Placeholder /\
  isLoading st' = false.
Proof.
  intros H Hs. destruct (finish_thrown _ _ _ H Hs) as (He & Hf & Hl & _).
  unfold error_box, feedback_pane. rewrite He, Hf. auto.
Qed.

Lemma reader_failure_message_witness :
  exists st, run initial_state
    [PickFiles (Some [mkFile (u "a.mp4") (u "video/mp4")]); ClickGenerate] = Some st /\
  exists st', step st (Finish (request_outcome ReadFailed (fun _ => Answer (u "ok")))) = Some st' /\
  error_box st' = Some msg_default_error /\ feedback_pane st' = Placeholder /\
  isLoading st' = false.
Proof.
  run_witness Hr. eexists. split; [reflexivity|].
  exact (reader_failure_message _ _ (fun _ => Answer (u "ok")) Hr eq_refl).
Defined.

Lemma split_on_free s : no_comma s = true -> split_on 44 s = [s].
Proof.
  induction s as [|c s IH]; [reflexivity|].
  cbn [no_comma forallb]. intros H. apply andb_prop in H as [Hc Hs].
  apply negb_true_iff in Hc. cbn [split_on]. rewrite Hc. rewrite (IH Hs). reflexivity.
Qed.

Lemma split_on_comma h r : no_comma h = true -> split_on 44 (h ++ 44%N :: r) = h :: split_on 44 r.
Proof.
  induction h as [|c h IH]; [reflexivity|].
  cbn [no_comma forallb]. intros H. apply andb_prop in H as [Hc Hh].
  apply negb_true_iff in Hc. cbn [app split_on]. rewrite Hc. rewrite (IH Hh). reflexivity.
Qed.

(** X18: for a data URL [h,b] whose header [h] and payload [b] contain no
    comma, [convertFileToBase64] resolves with the payload [b]. *)
Theorem base64_payload (h b : str) :
  no_comma h = true -> no_comma b = true ->
  convertFileToBase64 (ReadLoaded (h ++ [44%N] ++ b)) = Resolve (Some b).
Proof.
  intros Hh Hb. cbn [convertFileToBase64 onloadend app]. rewrite (split_on_comma h b Hh), (split_on_free b Hb).
  reflexivity.
Qed.

Lemma base64_payload_witness :
  no_comma (u "data:video/mp4;base64") = true /\ no_comma (u "AAAA") = true /\
  convertFileToBase64 (ReadLoaded (u "data:video/mp4;base64" ++ [44%N] ++ u "AAAA")) = Resolve (Some (u "AAAA")).
Proof.
  split; [reflexivity|]. split; [reflexivity|].
  apply base64_payload; reflexivity.
Defined.

(** X19: a string result without a comma does not reject: the promise
    resolves with [undefined]. *)
Theorem base64_no_comma (s : str) :
  no_comma s = true -> convertFileToBase64 (ReadLoaded s) = Resolve None.
Proof. intros H. cbn [convertFileToBase64 onloadend]. rewrite (split_on_free s H). reflexivity. Qed.

Lemma base64_no_comma_witness :
  no_comma (u "AAAA") = true /\ convertFileToBase64 (ReadLoaded (u "AAAA")) = Resolve None.
Proof. split; [reflexivity|]. apply base64_no_comma. reflexivity. Defined.

(** X20: with a second comma the result is cut there: only the text
    between the first and the second comma is sent. *)
Theorem base64_extra_comma (h b c : str) :
  no_comma h = true -> no_comma b = true ->
  convertFileToBase64 (ReadLoaded (h ++ [44%N] ++ b ++ [44%N] ++ c)) = Resolve (Some b).
Proof.
  intros Hh Hb. cbn [convertFileToBase64 onloadend app].
  rewrite (split_on_comma h _ Hh), (split_on_comma b c Hb). reflexivity.
Qed.

Lemma base64_extra_comma_witness :
  no_comma (u "data:x") = true /\ no_comma (u "AA") = true /\
  convertFileToBase64 (ReadLoaded (u "data:x" ++ [44%N] ++ u "AA" ++ [44%N] ++ u "BB")) = Resolve (Some (u "AA")).
Proof.
  split; [reflexivity|]. split; [reflexivity|].
  apply base64_extra_comma; reflexivity.
Defined.

Lemma take_line_one a : one_line a = true -> take_line a = length a.
Proof.
  induction a as [|c a IH]; [reflexivity|].
  cbn [one_line forallb]. intros H. apply andb_prop in H as [Hc Ha].
  apply negb_true_iff in Hc. cbn. rewrite Hc, (IH Ha). reflexivity.
Qed.

Lemma take_digits_run d r c :
  forallb is_digit d = true -> is_digit c = false -> take_digits (d ++ c :: r) = length d.
Proof.
  intros Hd Hc. induction d as [|x d IH]; cbn [app take_digits].
  - rewrite Hc. reflexivity.
  - cbn [forallb] in Hd. apply andb_prop in Hd as [Hx Hd]. rewrite Hx, (IH Hd). reflexivity.
Qed.

(** Inside one line, [^] only matches at the start. *)
Lemma infix_star2_app x y :
  forallb (fun c => negb (c =? 42)%N) x = true -> infix star2 y = false -> infix star2 (x ++ y) = false.
Proof.
  intros Hx Hy. induction x as [|c x IH]; [exact Hy|].
  cbn [forallb] in Hx. apply andb_prop in Hx as [Hc Hx].
  cbn [app]. rewrite infix_cons, (IH Hx), orb_false_r, star2_eq. cbn [starts_with].
  apply negb_true_iff in Hc. rewrite N.eqb_sym, Hc. reflexivity.
Qed.

(** A matcher that matches a whole string at its start: the pass replaces
    the string once. *)
Lemma replace_all_whole m rp s len gs :
  (forall q, m q [] = None) -> s <> [] -> m None s = Some (len, gs) -> len = length s ->
  replace_all m rp s = rp s gs 0 s.
Proof.
  intros Hnil Hs Hm ->. unfold replace_all. rewrite go_step, Hm, firstn_all, skipn_all.
  destruct s as [|c s]; [contradiction|]. cbn [length].
  rewrite go_step, Hnil, app_nil_r. reflexivity.
Qed.

(** The calls after the list item passes leave a single item line as it is. *)
Lemma format_item_tail a :
  one_line a = true ->
  pass_wrap (pass_blank_li (pass_end_ul (pass_start_ul (li_open ++ a ++ li_close)))) =
  li_open ++ a ++ li_close.
Proof.
  intros Ha.
  assert (Hl : one_line (li_open ++ a ++ li_close) = true)
    by (rewrite !one_line_app, Ha; reflexivity).
  unfold pass_start_ul, pass_end_ul, pass_blank_li, m_start_ul, m_end_ul, m_blank_li.
  set (s := li_open ++ a ++ li_close) in *.
  assert (H1 : infix (strong_close ++ nl ++ li_open) s = false) by (apply infix_one_line; [exact Hl|cbn; tauto]).
  assert (H2 : infix (li_close ++ nl ++ strong_open) s = false) by (apply infix_one_line; [exact Hl|cbn; tauto]).
  assert (H3 : infix (li_close ++ nl ++ nl ++ li_open) s = false) by (apply infix_one_line; [exact Hl|cbn; tauto]).
  rewrite (pass_nomatch_lit _ _ _ s H1), (pass_nomatch_lit _ _ _ s H2), (pass_nomatch_lit _ _ _ s H3).
  apply pass_wrap_id.
Qed.

Lemma pass_number_li a : one_line a = true -> pass_number (li_open ++ a ++ li_close) = li_open ++ a ++ li_close.
Proof.
  intros Ha.
  assert (Hl : one_line (li_open ++ a ++ li_close) = true)
    by (rewrite !one_line_app, Ha; reflexivity).
  apply replace_all_nomatch; [apply m_number_wf|]. intros pre v Hs.
  unfold m_number. cbv zeta.
  destruct pre as [|x pre].
  - cbn in Hs. subst v. reflexivity.
  - rewrite (one_line_not_start _ _ _ Hl Hs ltac:(discriminate)). reflexivity.
Qed.

Lemma skipn_len_app (d r : str) k : skipn (length d + k) (d ++ r) = skipn k r.
Proof. induction d as [|c d IH]; [reflexivity|]. exact IH. Qed.

Lemma digit_facts c : is_digit c = true -> is_lt c = false /\ (c =? 42)%N = false /\ (c =? 45)%N = false.
Proof.
  unfold is_digit, is_lt. intros H. apply andb_prop in H as [H1 H2].
  apply N.leb_le in H1, H2.
  repeat split; repeat rewrite orb_false_iff; repeat split; apply N.eqb_neq; lia.
Qed.

(** X21: a feedback of one bullet line [- a], with no [**] in [a], becomes
    a bare list item: no list container is added around it. *)
Theorem format_single_bullet (a : str) :
  one_line a = true -> infix star2 a = false ->
  format (u "- " ++ a) = li_open ++ a ++ li_close.
Proof.
  intros Ha Hb.
  assert (Hs : infix star2 (u "- " ++ a) = false) by (apply infix_star2_app; [reflexivity|exact Hb]).
  assert (E1 : pass_bold (u "- " ++ a) = u "- " ++ a).
  { apply replace_all_nomatch; [apply m_bold_wf|]. intros pre w Hw. rewrite Hw in Hs.
    unfold m_bold. rewrite (infix_app _ _ _ Hs). reflexivity. }
  assert (E2 : pass_bullet (u "- " ++ a) = li_open ++ a ++ li_close).
  { unfold pass_bullet. rewrite (replace_all_whole m_bullet r_li _ (2 + length a) [a]).
    - reflexivity.
    - intros q. unfold m_bullet. destruct (at_line_start q); reflexivity.
    - discriminate.
    - unfold m_bullet. cbn [at_line_start andb]. rewrite starts_with_app.
      cbn [u app skipn]. rewrite take_line_one, firstn_all by exact Ha. reflexivity.
    - reflexivity. }
  unfold format, format_unwrapped. rewrite E1, E2, (pass_number_li a Ha).
  apply format_item_tail, Ha.
Qed.

Lemma format_single_bullet_witness :
  one_line (u "use *mais* luz") = true /\ infix star2 (u "use *mais* luz") = false /\
  format (u "- " ++ u "use *mais* luz") = li_open ++ u "use *mais* luz" ++ li_close.
Proof.
  split; [reflexivity|]. split; [reflexivity|].
  apply format_single_bullet; reflexivity.
Defined.

(** X22: a feedback of one numbered line [d. a] ([d] a run of digits, no
    [**] in [a]) becomes a bare list item: the number is dropped and no
    ordered-list container is added. *)
Theorem format_single_numbered (d a : str) :
  d <> [] -> forallb is_digit d = true -> one_line a = true -> infix star2 a = false ->
  format (d ++ u ". " ++ a) = li_open ++ a ++ li_close.
Proof.
  intros Hd Hdig Ha Hb.
  assert (Hdl : forall c, In c d -> is_lt c = false /\ (c =? 42)%N = false /\ (c =? 45)%N = false)
    by (intros c Hc; apply digit_facts; rewrite forallb_forall in Hdig; auto).
  set (s := d ++ u ". " ++ a).
  assert (Hl : one_line s = true).
  { unfold s. rewrite !one_line_app, Ha, andb_true_r.
    unfold one_line. apply forallb_forall.
    intros c Hc. rewrite (proj1 (Hdl c Hc)). reflexivity. }
  assert (Hs : infix star2 s = false).
  { unfold s. rewrite app_assoc. apply infix_star2_app; [|exact Hb].
    rewrite forallb_app. apply andb_true_intro. split; [|reflexivity].
    apply forallb_forall. intros c Hc. rewrite (proj1 (proj2 (Hdl c Hc))). reflexivity. }
  assert (E1 : pass_bold s = s).
  { apply replace_all_nomatch; [apply m_bold_wf|]. intros pre w Hw. rewrite Hw in Hs.
    unfold m_bold. rewrite (infix_app _ _ _ Hs). reflexivity. }
  assert (E2 : pass_bullet s = s).
  { apply replace_all_nomatch; [apply m_bullet_wf|]. intros pre w Hw.
    unfold m_bullet. destruct pre as [|x pre].
    - cbn in Hw. subst w. unfold s. destruct d as [|c d']; [contradiction|].
      replace (u "- ") with [45%N; 32%N] by reflexivity.
      cbn [last_char fold_left at_line_start andb app starts_with].
      rewrite N.eqb_sym, (proj2 (proj2 (Hdl c (or_introl eq_refl)))). reflexivity.
    - rewrite (one_line_not_start _ _ _ Hl Hw ltac:(discriminate)). reflexivity. }
  assert (E3 : pass_number s = li_open ++ a ++ li_close).
  { unfold pass_number.
    rewrite (replace_all_whole m_number r_li _ (length d + 2 + length a) [a]).
    - reflexivity.
    - intros q. unfold m_number. cbn. destruct (at_line_start q); reflexivity.
    - unfold s. destruct d; [contradiction|discriminate].
    - unfold m_number. cbv zeta.
      assert (Ht : take_digits s = length d) by (apply take_digits_run; [exact Hdig|reflexivity]).
      rewrite Ht. cbn [at_line_start andb].
      assert (Hpos : (0 <? length d)%nat = true)
        by (destruct d; [contradiction|reflexivity]).
      rewrite Hpos.
      assert (Hk : skipn (length d) s = u ". " ++ a)
        by (unfold s; rewrite <- (Nat.add_0_r (length d)), skipn_len_app; reflexivity).
      rewrite Hk, starts_with_app.
      assert (Hk2 : skipn (length d + 2) s = a) by (unfold s; rewrite skipn_len_app; reflexivity).
      rewrite Hk2, take_line_one, firstn_all by exact Ha. reflexivity.
    - unfold s. rewrite length_app. cbn. lia. }
  unfold format, format_unwrapped. rewrite E1, E2, E3.
  apply format_item_tail, Ha.
Qed.

Lemma format_single_numbered_witness :
  u "12" <> [] /\ forallb is_digit (u "12") = true /\
  one_line (u "grave de novo") = true /\ infix star2 (u "grave de novo") = false /\
  format (u "12" ++ u ". " ++ u "grave de novo") = li_open ++ u "grave de novo" ++ li_close.
Proof.
  split; [discriminate|]. split; [reflexivity|]. split; [reflexivity|]. split; [reflexivity|].
  apply format_single_numbered; [discriminate|reflexivity|reflexivity|reflexivity].
Defined.
